(** * Huffman tree codec: [huffman/util.py]

    A shallow embedding of [decode_byte], [decompress], [compress],
    [read_tree] and [write_tree], together with the collaborators they
    import ([bitio], [huffman], [pickle]).

    Python values are modelled as follows.
    - An [int] is a [Z]; [None] next to an [int] is [option Z].
    - A file object is the list of the bytes it holds ([list Z]); writing
      appends, reading consumes from the front.
    - A [dict] is a [gmap].
    - A bit is a [bool]: [readbit] yields 0 or 1, and the code tests
      [bit == 0] and [bit == 1].
    - An exception that leaves a function is a [Raise]. The [EOFError]
      of the bit reader is caught by each of its callers, so it is the
      [None] of [readbit] and [readbits].
    - A [while] loop is a body function iterated by a fuel-indexed
      driver; [None] from a driver means the fuel ran out before the loop
      stopped. [decode_byte_total], [decompress_total] and
      [compress_total] show that the fuel the callers pass is always
      enough. *)

From Stdlib Require Import ZArith Lia ZifyNat.
From stdpp Require Import base option list gmap.

(** ** Exceptions and results *)

Inductive exn : Type :=
| KeyError (key : option Z)
| AttributeError
| UnpicklingError.

Inductive result (A : Type) : Type :=
| Ok (a : A)
| Raise (e : exn).
Arguments Ok {A} a.
Arguments Raise {A} e.

(** The outcome of one pass through a loop body. *)
Inductive iteration (S A : Type) : Type :=
| Next (s : S)
| Return (a : A)
| Throw (e : exn).
Arguments Next {S A} s.
Arguments Return {S A} a.
Arguments Throw {S A} e.

(** ** The [huffman] module *)

(** Modelled from the spec: the classes [huffman.TreeLeaf] and the
    internal node of the [huffman] module are not part of the sources. A
    leaf holds a byte value or [None], the end-of-stream marker; an
    internal node holds exactly two children. *)
Inductive HuffmanTree : Type :=
| TreeLeaf (value : option Z)
| TreeInternal (left right : HuffmanTree).

(** Modelled from the spec: the accessors [util.py] calls are methods of
    the absent classes. A leaf has a value and no children, an internal
    node has two children and no value; asking a node for what it does
    not have fails the way a missing Python attribute does. *)
Definition getLeft (t : HuffmanTree) : result HuffmanTree :=
  match t with
  | TreeInternal l _ => Ok l
  | TreeLeaf _ => Raise AttributeError
  end.

Definition getRight (t : HuffmanTree) : result HuffmanTree :=
  match t with
  | TreeInternal _ r => Ok r
  | TreeLeaf _ => Raise AttributeError
  end.

Definition getValue (t : HuffmanTree) : result (option Z) :=
  match t with
  | TreeLeaf v => Ok v
  | TreeInternal _ _ => Raise AttributeError
  end.

Definition isinstance_TreeLeaf (t : HuffmanTree) : bool :=
  match t with
  | TreeLeaf _ => true
  | TreeInternal _ _ => false
  end.

Fixpoint height (t : HuffmanTree) : nat :=
  match t with
  | TreeLeaf _ => 0
  | TreeInternal l r => S (Nat.max (height l) (height r))
  end.

Fixpoint leaves (t : HuffmanTree) : list (option Z) :=
  match t with
  | TreeLeaf v => [v]
  | TreeInternal l r => leaves l ++ leaves r
  end.

(** The node a bit path leads to: [false] is left, [true] is right;
    a leaf has nowhere to go. *)
Fixpoint descend (t : HuffmanTree) (path : list bool) {struct path} : option HuffmanTree :=
  match path with
  | [] => Some t
  | bit :: path' =>
      match t with
      | TreeLeaf _ => None
      | TreeInternal l r => descend (if bit then r else l) path'
      end
  end.

(** Modelled from the spec: [huffman.make_encoding_table] is not part of
    the sources. Depth-first traversal threading the path so far: an
    internal node recurses left with [path + false] and right with
    [path + true]; a leaf records [(value, path)] in the table. *)
Fixpoint recurse (t : HuffmanTree) (path : list bool)
    (table : gmap (option Z) (list bool)) : gmap (option Z) (list bool) :=
  match t with
  | TreeLeaf v => <[v := path]> table
  | TreeInternal l r =>
      recurse r (path ++ [true]) (recurse l (path ++ [false]) table)
  end.

Definition make_encoding_table (tree : HuffmanTree) : gmap (option Z) (list bool) :=
  recurse tree [] ∅.

(** ** The [bitio] module *)

Definition is_byte (z : Z) : Prop := (0 ≤ z < 256)%Z.

(** Modelled from the spec: the bit order of [bitio] is that of the
    spec's scenario, where the bits 0,1,0,1,1 are packed into the byte
    01011000. Bits of a byte, most significant first. *)
Definition bits_of_byte (z : Z) : list bool :=
  [Z.testbit z 7; Z.testbit z 6; Z.testbit z 5; Z.testbit z 4;
   Z.testbit z 3; Z.testbit z 2; Z.testbit z 1; Z.testbit z 0].

Definition bits_of_bytes (stream : list Z) : list bool :=
  concat (map bits_of_byte stream).

(** Value of a bit sequence read most significant bit first. *)
Definition byte_of_bits (bits : list bool) : Z :=
  fold_left (λ acc (b : bool), (2 * acc + Z.b2z b)%Z) bits 0%Z.

(** A source of bits is anything with a [readbit] method, which yields
    one bit per call or raises [EOFError] once the source is exhausted;
    [None] is that [EOFError]. [decode_byte] asks nothing else of its
    [bitreader]. *)
Class BitSource (R : Type) := readbit : R → option (bool * R).

(** Modelled from the spec: [bitio.BitReader] is not part of the sources.
    A reader over a byte stream yields the bits of its bytes in order,
    most significant bit first, and fails once the stream is exhausted.
    Its state is the sequence of bits not yet read. *)
Definition BitReader (stream : list Z) : list bool := bits_of_bytes stream.

#[global] Instance BitReader_source : BitSource (list bool) :=
  λ bits, match bits with
          | [] => None
          | b :: bits' => Some (b, bits')
          end.

(** Modelled from the spec: [readbits(n)] of the absent [bitio] is the
    unsigned integer made of the next [n] bits, and fails when fewer than
    [n] bits remain. *)
Fixpoint readbits `{BitSource R} (n : nat) (reader : R) : option (Z * R) :=
  match n with
  | 0 => Some (0%Z, reader)
  | S n' =>
      match readbit reader with
      | None => None
      | Some (bit, reader') =>
          match readbits n' reader' with
          | None => None
          | Some (v, reader'') => Some ((Z.b2z bit * 2 ^ Z.of_nat n' + v)%Z, reader'')
          end
      end
  end.

(** Modelled from the spec: [bitio.BitWriter] is not part of the sources.
    [w_out] is the content of the underlying sink, [w_pending] the bits of
    the current partial byte (fewer than eight). A byte goes to the sink
    when its eighth bit arrives; [flush] pads the current partial byte
    with zero bits and does nothing when there is none. *)
Record BitWriter : Type := mkBitWriter {
  w_out : list Z;
  w_pending : list bool
}.

Definition new_BitWriter (sink : list Z) : BitWriter :=
  {| w_out := sink; w_pending := [] |}.

Definition writebit (bit : bool) (w : BitWriter) : BitWriter :=
  let pending := w_pending w ++ [bit] in
  if Nat.eqb (length pending) 8
  then {| w_out := w_out w ++ [byte_of_bits pending]; w_pending := [] |}
  else {| w_out := w_out w; w_pending := pending |}.

(** Modelled from the spec: [writebits(value, n)] of the absent [bitio]
    writes the low [n] bits of [value], most significant first. *)
Fixpoint writebits (value : Z) (n : nat) (w : BitWriter) : BitWriter :=
  match n with
  | 0 => w
  | S n' => writebits value n' (writebit (Z.testbit value (Z.of_nat n')) w)
  end.

(** [for dir in path: writer.writebit(dir)] *)
Definition write_path (path : list bool) (w : BitWriter) : BitWriter :=
  fold_left (λ w dir, writebit dir w) path w.

Definition flush (w : BitWriter) : BitWriter :=
  match w_pending w with
  | [] => w
  | pending =>
      {| w_out := w_out w ++ [byte_of_bits (pending ++ repeat false (8 - length pending))];
         w_pending := [] |}
  end.

(** ** The [pickle] module *)

(** [pickle.dump] writes a self-delimiting description of a tree;
    [pickle.load] reads one from the front of a stream and leaves the
    rest. The format is the library's; the codec relies on the contract
    [PickleRoundTrip] only. *)
Class Pickle := {
  pickle_dump : HuffmanTree → list Z;
  pickle_load : list Z → option (HuffmanTree * list Z)
}.

Definition PickleRoundTrip `{Pickle} : Prop :=
  ∀ tree rest, pickle_load (pickle_dump tree ++ rest) = Some (tree, rest).

(** ** [util.py] *)

Section util.
Context `{Pickle}.

(** [read_tree(tree_stream)]: the tree and the stream after it. *)
Definition read_tree (tree_stream : list Z) : result (HuffmanTree * list Z) :=
  match pickle_load tree_stream with
  | Some r => Ok r
  | None => Raise UnpicklingError
  end.

(** [write_tree(tree, tree_stream)]: the stream afterwards. *)
Definition write_tree (tree : HuffmanTree) (tree_stream : list Z) : list Z :=
  tree_stream ++ pickle_dump tree.

(** *** [decode_byte] *)

(** One pass through the body of [while not end_of_file] in
    [decode_byte], from the current node [tree_part]: read a bit (an
    [EOFError] is caught and [None] returned), move to the left child on
    0 and to the right child on 1, and return the value of the node moved
    to when it is a leaf. (The assignment [tree_part = tree] just before
    the [return] has no effect: [tree_part] is local.) *)
Definition decode_byte_body `{BitSource R} (tree_part : HuffmanTree) (bitreader : R)
    : iteration HuffmanTree (option Z) * R :=
  match readbit bitreader with
  | None => (Return None, bitreader)
  | Some (bit, bitreader') =>
      match (if bit then getRight tree_part else getLeft tree_part) with
      | Raise e => (Throw e, bitreader')
      | Ok tree_part' =>
          if isinstance_TreeLeaf tree_part'
          then match getValue tree_part' with
               | Ok leaf_value => (Return leaf_value, bitreader')
               | Raise e => (Throw e, bitreader')
               end
          else (Next tree_part', bitreader')
      end
  end.

Fixpoint decode_byte_loop `{BitSource R} (fuel : nat) (tree_part : HuffmanTree)
    (bitreader : R) : option (result (option Z) * R) :=
  match fuel with
  | 0 => None
  | S fuel' =>
      match decode_byte_body tree_part bitreader with
      | (Next tree_part', bitreader') => decode_byte_loop fuel' tree_part' bitreader'
      | (Return v, bitreader') => Some (Ok v, bitreader')
      | (Throw e, bitreader') => Some (Raise e, bitreader')
      end
  end.

(** [decode_byte(tree, bitreader)]: the returned value (or the exception)
    and the reader afterwards. The loop starts with [tree_part = tree]. *)
Definition decode_byte `{BitSource R} (tree : HuffmanTree) (bitreader : R)
    : option (result (option Z) * R) :=
  decode_byte_loop (S (height tree)) tree bitreader.

(** *** [decompress] *)

(** The local variables of [decompress] while its loop runs. *)
Record decompress_locals : Type := mkDecompress {
  d_tree : HuffmanTree;
  d_reader : list bool;
  d_writer : BitWriter;
  d_byte : option Z
}.

(** [while byte is not None: writer.writebits(byte, 8);
    byte = decode_byte(tree, reader)] *)
Fixpoint decompress_loop (fuel : nat) (st : decompress_locals)
    : option (result decompress_locals) :=
  match d_byte st with
  | None => Some (Ok st)
  | Some byte =>
      match fuel with
      | 0 => None
      | S fuel' =>
          let writer := writebits byte 8 (d_writer st) in
          match decode_byte (d_tree st) (d_reader st) with
          | None => None
          | Some (Raise e, _) => Some (Raise e)
          | Some (Ok byte', reader) =>
              decompress_loop fuel'
                {| d_tree := d_tree st; d_reader := reader;
                   d_writer := writer; d_byte := byte' |}
          end
      end
  end.

(** [decompress(compressed, uncompressed)]: the local variables at the
    end; the content of [uncompressed] afterwards is [w_out] of the
    writer. *)
Definition decompress (compressed uncompressed : list Z)
    : option (result decompress_locals) :=
  match read_tree compressed with
  | Raise e => Some (Raise e)
  | Ok (tree, compressed') =>
      let reader := BitReader compressed' in
      let writer := new_BitWriter uncompressed in
      match decode_byte tree reader with
      | None => None
      | Some (Raise e, _) => Some (Raise e)
      | Some (Ok byte, reader') =>
          match decompress_loop (S (length reader))
                  {| d_tree := tree; d_reader := reader';
                     d_writer := writer; d_byte := byte |} with
          | None => None
          | Some (Raise e) => Some (Raise e)
          | Some (Ok st) =>
              Some (Ok {| d_tree := d_tree st; d_reader := d_reader st;
                          d_writer := flush (d_writer st); d_byte := d_byte st |})
          end
      end
  end.

(** *** [compress] *)

(** The local variables of [compress] while its loop runs. *)
Record compress_locals : Type := mkCompress {
  c_tree : HuffmanTree;
  c_table : gmap (option Z) (list bool);
  c_writer : BitWriter;
  c_reader : list bool;
  c_end_of_file : bool
}.

(** One pass through the body of [while not end_of_file] in [compress].
    A [KeyError] from [table[...]] is not an [EOFError]: the handler does
    not catch it, and one raised inside the handler leaves as well. *)
Definition compress_body (st : compress_locals) : result compress_locals :=
  match readbits 8 (c_reader st) with
  | Some (byte, reader) =>
      match c_table st !! Some byte with
      | None => Raise (KeyError (Some byte))
      | Some path =>
          Ok {| c_tree := c_tree st; c_table := c_table st;
                c_writer := write_path path (c_writer st);
                c_reader := reader; c_end_of_file := c_end_of_file st |}
      end
  | None =>
      match c_table st !! None with
      | None => Raise (KeyError None)
      | Some path =>
          Ok {| c_tree := c_tree st; c_table := c_table st;
                c_writer := write_path path (c_writer st);
                c_reader := c_reader st; c_end_of_file := true |}
      end
  end.

Fixpoint compress_loop (fuel : nat) (st : compress_locals)
    : option (result compress_locals) :=
  if c_end_of_file st then Some (Ok st)
  else match fuel with
       | 0 => None
       | S fuel' =>
           match compress_body st with
           | Raise e => Some (Raise e)
           | Ok st' => compress_loop fuel' st'
           end
       end.

(** [compress(tree, uncompressed, compressed)]: the local variables at
    the end; the content of [compressed] afterwards is [w_out] of the
    writer. *)
Definition compress (tree : HuffmanTree) (uncompressed compressed : list Z)
    : option (result compress_locals) :=
  let compressed' := write_tree tree compressed in
  let table := make_encoding_table tree in
  let writer := new_BitWriter compressed' in
  let reader := BitReader uncompressed in
  match compress_loop (S (length uncompressed))
          {| c_tree := tree; c_table := table; c_writer := writer;
             c_reader := reader; c_end_of_file := false |} with
  | None => None
  | Some (Raise e) => Some (Raise e)
  | Some (Ok st) =>
      Some (Ok {| c_tree := c_tree st; c_table := c_table st;
                  c_writer := flush (c_writer st);
                  c_reader := c_reader st; c_end_of_file := c_end_of_file st |})
  end.

End util.

(** ** Instances used to run the codec *)

(** A self-delimiting tree format that meets [PickleRoundTrip]: a node
    tag followed by the payload of the node. *)
Fixpoint tag_dump (t : HuffmanTree) : list Z :=
  match t with
  | TreeLeaf None => [0%Z]
  | TreeLeaf (Some v) => [1%Z; v]
  | TreeInternal l r => 2%Z :: tag_dump l ++ tag_dump r
  end.

Fixpoint tag_load_fuel (fuel : nat) (stream : list Z) : option (HuffmanTree * list Z) :=
  match fuel with
  | 0 => None
  | S fuel' =>
      match stream with
      | 0%Z :: rest => Some (TreeLeaf None, rest)
      | 1%Z :: v :: rest => Some (TreeLeaf (Some v), rest)
      | 2%Z :: rest =>
          match tag_load_fuel fuel' rest with
          | None => None
          | Some (l, rest') =>
              match tag_load_fuel fuel' rest' with
              | None => None
              | Some (r, rest'') => Some (TreeInternal l r, rest'')
              end
          end
      | _ => None
      end
  end.

Definition tag_pickle : Pickle :=
  {| pickle_dump := tag_dump;
     pickle_load := λ stream, tag_load_fuel (length stream) stream |}.

(** A bit source that never ends: every read yields 0. *)
Inductive zeros : Type := Zeros.

#[global] Instance zeros_source : BitSource zeros := λ z, Some (false, z).

(** The tree of the spec's scenario: 'a' at 0, 'b' at 10, the
    end-of-stream marker at 11. *)
Definition tree_ab : HuffmanTree :=
  TreeInternal (TreeLeaf (Some 97%Z))
               (TreeInternal (TreeLeaf (Some 98%Z)) (TreeLeaf None)).

(** ** Notions used to state the properties *)

(** [wrote w w' bits]: going from [w] to [w'], the writer received
    [bits]; the bytes that reached the sink and the bits still pending
    are, together, what was pending before followed by [bits]. *)
Definition wrote (w w' : BitWriter) (bits : list bool) : Prop :=
  ∃ extra, w_out w' = w_out w ++ extra
           ∧ Forall is_byte extra
           ∧ bits_of_bytes extra ++ w_pending w' = w_pending w ++ bits
           ∧ length (w_pending w') < 8.

(** The number of zero bits that complete [n] bits to whole bytes. *)
Definition pad_length (n : nat) : nat := (8 - n mod 8) mod 8.

(** [reads r path r']: reading from [r] yields the bits of [path], one
    per call, and leaves the source in state [r']. *)
Inductive reads `{BitSource R} : R → list bool → R → Prop :=
| reads_nil r : reads r [] r
| reads_cons r bit r1 path r2 :
    readbit r = Some (bit, r1) → reads r1 path r2 → reads r (bit :: path) r2.

(** [byte = decode_byte(tree, reader)] followed by the [while] loop: the
    shape of [decompress] after its streams are set up, and of every pass
    through the loop after the write. *)
Definition decode_then_loop (fuel : nat) (tree : HuffmanTree) (reader : list bool)
    (writer : BitWriter) : option (result decompress_locals) :=
  match decode_byte tree reader with
  | None => None
  | Some (Raise e, _) => Some (Raise e)
  | Some (Ok byte, reader') =>
      decompress_loop fuel
        {| d_tree := tree; d_reader := reader'; d_writer := writer; d_byte := byte |}
  end.

(** [codeword tree s path]: [path] has at least one bit and leads from
    the root to a leaf holding the byte [s]. *)
Definition codeword (tree : HuffmanTree) (s : Z) (path : list bool) : Prop :=
  path ≠ [] ∧ descend tree path = Some (TreeLeaf (Some s)).

(** Eight bits at a time, most significant first. *)
Fixpoint bytes_of_bits (bits : list bool) : list Z :=
  match bits with
  | b7 :: b6 :: b5 :: b4 :: b3 :: b2 :: b1 :: b0 :: rest =>
      byte_of_bits [b7; b6; b5; b4; b3; b2; b1; b0] :: bytes_of_bits rest
  | _ => []
  end.

(** The bit-packing the spec names: the bits, zero-padded to a byte
    boundary, as bytes. *)
Definition bitpacked (bits : list bool) : list Z :=
  bytes_of_bits (bits ++ repeat false (pad_length (length bits))).

(** [n] rounded up to the next multiple of 8. *)
Definition round_up_8 (n : nat) : nat := 8 * ((n + 7) / 8).

(** * Properties *)

(** ** Bits and bytes *)

Lemma bits_of_byte_length z : length (bits_of_byte z) = 8.
Proof. reflexivity. Qed.

Lemma bits_of_bytes_length stream : length (bits_of_bytes stream) = 8 * length stream.
Proof.
  unfold bits_of_bytes. induction stream as [|z stream IH]; [done|].
  cbn [map concat]. rewrite length_app, IH, bits_of_byte_length. simpl. lia.
Qed.

Lemma bits_of_bytes_app s1 s2 :
  bits_of_bytes (s1 ++ s2) = bits_of_bytes s1 ++ bits_of_bytes s2.
Proof. unfold bits_of_bytes. by rewrite map_app, concat_app. Qed.

Lemma byte_of_bits_of_byte z : is_byte z → byte_of_bits (bits_of_byte z) = z.
Proof.
  intros [Hlo Hhi].
  rewrite <- (Z2Nat.id z) by done.
  assert (Hn : Z.to_nat z < 256) by lia.
  generalize dependent (Z.to_nat z). clear. intros n Hn.
  do 256 (destruct n as [|n]; [reflexivity|]). lia.
Qed.

(** [writebits(value, 8)] keeps the low 8 bits of [value]. *)
Lemma byte_of_bits_low (v : Z) : byte_of_bits (bits_of_byte v) = (v mod 256)%Z.
Proof.
  assert (Hbits : bits_of_byte v = bits_of_byte (v mod 256)).
  { unfold bits_of_byte. change 256%Z with (2 ^ 8)%Z.
    by rewrite !Z.mod_pow2_bits_low by lia. }
  rewrite Hbits. apply byte_of_bits_of_byte. unfold is_byte.
  apply Z.mod_pos_bound. lia.
Qed.

Lemma bits_of_byte_of_bits (bits : list bool) :
  length bits = 8 → bits_of_byte (byte_of_bits bits) = bits.
Proof.
  intros Hlen.
  do 8 (destruct bits as [|? bits]; [discriminate|]).
  destruct bits; [|discriminate].
  repeat match goal with b : bool |- _ => destruct b end; reflexivity.
Qed.

Lemma byte_of_bits_is_byte (bits : list bool) :
  length bits = 8 → is_byte (byte_of_bits bits).
Proof.
  intros Hlen.
  do 8 (destruct bits as [|? bits]; [discriminate|]).
  destruct bits; [|discriminate].
  repeat match goal with b : bool |- _ => destruct b end; split; by vm_compute.
Qed.

Lemma byte_of_bits_acc (bits : list bool) (acc : Z) :
  fold_left (λ acc (b : bool), (2 * acc + Z.b2z b)%Z) bits acc
  = (acc * 2 ^ Z.of_nat (length bits) + byte_of_bits bits)%Z.
Proof.
  unfold byte_of_bits. revert acc.
  induction bits as [|b bits IH]; intros acc.
  - simpl. lia.
  - cbn [fold_left length]. rewrite IH, (IH (2 * 0 + Z.b2z b)%Z).
    rewrite Nat2Z.inj_succ, Z.pow_succ_r by lia. lia.
Qed.

(** ** The bit reader *)

Lemma readbits_app (bits rest : list bool) :
  readbits (length bits) (bits ++ rest) = Some (byte_of_bits bits, rest).
Proof.
  induction bits as [|b bits IH]; [done|].
  cbn [length readbits app]. unfold readbit at 1. cbn [BitReader_source].
  rewrite IH. unfold byte_of_bits at 2. cbn [fold_left].
  rewrite byte_of_bits_acc. repeat f_equal; lia.
Qed.

Lemma readbits_byte (z : Z) (rest : list bool) :
  is_byte z → readbits 8 (bits_of_byte z ++ rest) = Some (z, rest).
Proof.
  intros Hz. rewrite <- (byte_of_bits_of_byte z) at 2 by done.
  apply (readbits_app (bits_of_byte z)).
Qed.

(** ** The bit writer *)

Lemma wrote_nil w : length (w_pending w) < 8 → wrote w w [].
Proof.
  intros Hlen. exists []. rewrite !app_nil_r. by split_and!.
Qed.

Lemma wrote_app w1 w2 w3 bits1 bits2 :
  wrote w1 w2 bits1 → wrote w2 w3 bits2 → wrote w1 w3 (bits1 ++ bits2).
Proof.
  intros (e1 & Ho1 & Hb1 & Hp1 & _) (e2 & Ho2 & Hb2 & Hp2 & Hlen).
  exists (e1 ++ e2). split_and!.
  - by rewrite Ho2, Ho1, app_assoc.
  - by apply Forall_app.
  - rewrite bits_of_bytes_app, <- app_assoc, Hp2, !app_assoc. by rewrite Hp1.
  - done.
Qed.

Lemma writebit_wrote bit w :
  length (w_pending w) < 8 → wrote w (writebit bit w) [bit].
Proof.
  intros Hlen. unfold writebit.
  destruct (Nat.eqb_spec (length (w_pending w ++ [bit])) 8) as [Heq|Hne].
  - exists [byte_of_bits (w_pending w ++ [bit])]. cbn [w_out w_pending].
    split_and!.
    + done.
    + apply Forall_singleton. by apply byte_of_bits_is_byte.
    + unfold bits_of_bytes. cbn [map concat].
      rewrite bits_of_byte_of_bits by done. by rewrite !app_nil_r.
    + simpl. lia.
  - exists []. cbn [w_out w_pending]. rewrite app_nil_r.
    rewrite length_app in *. simpl in *. split_and!; [done..|lia].
Qed.

Lemma write_path_wrote path w :
  length (w_pending w) < 8 → wrote w (write_path path w) path.
Proof.
  revert w. induction path as [|dir path IH]; intros w Hlen.
  - by apply wrote_nil.
  - unfold write_path. cbn [fold_left].
    pose proof (writebit_wrote dir w Hlen) as Hw.
    apply (wrote_app _ _ _ [dir] path Hw).
    apply IH. by destruct Hw as (? & _ & _ & _ & ?).
Qed.

Lemma writebits_byte value w :
  w_pending w = [] →
  writebits value 8 w
  = {| w_out := w_out w ++ [byte_of_bits (bits_of_byte value)]; w_pending := [] |}.
Proof. destruct w as [out pending]. simpl. by intros ->. Qed.

Lemma flush_wrote w :
  length (w_pending w) < 8 →
  ∃ k, wrote w (flush w) (repeat false k) ∧ w_pending (flush w) = []
       ∧ k = pad_length (length (w_pending w)).
Proof.
  intros Hlen. unfold flush.
  destruct (w_pending w) as [|b pending] eqn:Hp.
  - exists 0. split; [|done]. apply wrote_nil. by rewrite Hp.
  - exists (8 - length (b :: pending)). split; [|split; [done|]].
    + exists [byte_of_bits ((b :: pending) ++ repeat false (8 - length (b :: pending)))].
      assert (Hl8 : length ((b :: pending) ++ repeat false (8 - length (b :: pending))) = 8).
      { rewrite length_app, repeat_length. lia. }
      cbn [w_out w_pending]. rewrite Hp. split_and!.
      * done.
      * apply Forall_singleton. by apply byte_of_bits_is_byte.
      * unfold bits_of_bytes. cbn [map concat].
        rewrite bits_of_byte_of_bits by done. by rewrite !app_nil_r.
      * simpl. lia.
    + unfold pad_length. rewrite (Nat.mod_small (length (b :: pending))) by done.
      rewrite Nat.mod_small; [done|]. simpl. lia.
Qed.

(** ** The encoding table *)

Lemma recurse_lookup (t : HuffmanTree) (path : list bool)
    (table : gmap (option Z) (list bool)) (k : option Z) (p : list bool) :
  recurse t path table !! k = Some p →
  table !! k = Some p ∨ ∃ q, p = path ++ q ∧ descend t q = Some (TreeLeaf k).
Proof.
  revert path table. induction t as [v|l IHl r IHr]; intros path table Hk.
  - cbn [recurse] in Hk. destruct (decide (v = k)) as [->|Hne].
    + rewrite lookup_insert_eq in Hk. injection Hk as <-.
      right. exists []. by rewrite app_nil_r.
    + rewrite lookup_insert_ne in Hk by done. by left.
  - cbn [recurse] in Hk.
    destruct (IHr _ _ Hk) as [Hl|(q & -> & Hq)].
    + destruct (IHl _ _ Hl) as [Ht|(q & -> & Hq)]; [by left|].
      right. exists (false :: q). by rewrite <- app_assoc.
    + right. exists (true :: q). by rewrite <- app_assoc.
Qed.

Lemma recurse_covers (t : HuffmanTree) (path : list bool)
    (table : gmap (option Z) (list bool)) (k : option Z) :
  k ∈ leaves t ∨ is_Some (table !! k) → is_Some (recurse t path table !! k).
Proof.
  revert path table. induction t as [v|l IHl r IHr]; intros path table Hk.
  - cbn [recurse leaves] in *. destruct (decide (v = k)) as [->|Hne].
    + rewrite lookup_insert_eq. by eexists.
    + rewrite lookup_insert_ne by done.
      destruct Hk as [Hk|Hk]; [|done]. apply list_elem_of_singleton in Hk. congruence.
  - cbn [recurse leaves] in *. apply IHr.
    destruct Hk as [[Hk|Hk]%elem_of_app|Hk]; [|by left|]; right; apply IHl; auto.
Qed.

(** Every entry of the table is the path to a leaf holding its key. *)
Lemma table_sound (tree : HuffmanTree) (k : option Z) (p : list bool) :
  make_encoding_table tree !! k = Some p → descend tree p = Some (TreeLeaf k).
Proof.
  intros Hk. apply recurse_lookup in Hk as [Hk|(q & -> & Hq)]; [|done].
  by rewrite lookup_empty in Hk.
Qed.

(** Every value held by a leaf has an entry. *)
Lemma table_complete (tree : HuffmanTree) (k : option Z) :
  k ∈ leaves tree → is_Some (make_encoding_table tree !! k).
Proof. intros Hk. apply recurse_covers. by left. Qed.

Lemma descend_leaf_height t path v :
  descend t path = Some (TreeLeaf v) → length path ≤ height t.
Proof.
  revert t. induction path as [|bit path IH]; intros t Hd; [simpl; lia|].
  destruct t as [|l r]; [done|]. cbn [descend] in Hd. apply IH in Hd.
  cbn [length height]. destruct bit; lia.
Qed.

Lemma descend_internal_height t path l r :
  descend t path = Some (TreeInternal l r) → length path < height t.
Proof.
  revert t. induction path as [|bit path IH]; intros t Hd.
  - simplify_eq/=. lia.
  - destruct t as [|l' r']; [done|]. cbn [descend] in Hd. apply IH in Hd.
    cbn [length height]. destruct bit; lia.
Qed.

(** ** [decode_byte] *)

Lemma reads_list (path rest : list bool) : reads (path ++ rest) path rest.
Proof.
  induction path as [|bit path IH]; [constructor|].
  by apply reads_cons with (r1 := path ++ rest).
Qed.

Section decode_byte.
Context `{BitSource R}.

(** The loop always stops: from any node, within one pass more than the
    height of that node, whatever the source yields. *)
Lemma decode_byte_loop_halts (fuel : nat) (tree_part : HuffmanTree) (bitreader : R) :
  height tree_part < fuel → is_Some (decode_byte_loop fuel tree_part bitreader).
Proof.
  revert tree_part bitreader.
  induction fuel as [|fuel IH]; intros tree_part bitreader Hfuel; [lia|].
  cbn [decode_byte_loop]. unfold decode_byte_body.
  destruct (readbit bitreader) as [[bit bitreader']|]; [|by eexists].
  destruct tree_part as [v|l r].
  - destruct bit; by eexists.
  - assert (Hsub : ∀ t, height t < height (TreeInternal l r) →
              is_Some (match (if isinstance_TreeLeaf t
                              then match getValue t with
                                   | Ok leaf_value => (Return leaf_value, bitreader')
                                   | Raise e => (Throw e, bitreader')
                                   end
                              else (Next t, bitreader')) with
                       | (Next tp, br) => decode_byte_loop fuel tp br
                       | (Return v, br) => Some (Ok v, br)
                       | (Throw e, br) => Some (Raise e, br)
                       end)).
    { intros [v|l' r'] Hlt; [by eexists|]. apply IH. lia. }
    destruct bit; cbn [getLeft getRight]; apply Hsub; simpl; lia.
Qed.

(** [decode_byte] always comes back, on any tree and any source, finite
    or not. *)
Lemma decode_byte_total (tree : HuffmanTree) (bitreader : R) :
  is_Some (decode_byte tree bitreader).
Proof. apply decode_byte_loop_halts. lia. Qed.

(** A pass that goes on does so from a child of the node it started at:
    the loop only moves down, and never comes back to the root. *)
Lemma decode_byte_body_descends (tree_part tree_part' : HuffmanTree) (r r' : R) :
  decode_byte_body tree_part r = (Next tree_part', r') →
  height tree_part' < height tree_part.
Proof.
  unfold decode_byte_body.
  destruct (readbit r) as [[bit r1]|]; [|done].
  destruct tree_part as [v|lt rt]; [by destruct bit|].
  destruct bit; cbn [getLeft getRight].
  - destruct rt as [v|l' r'']; [done|]. intros [= <- <-]. simpl. lia.
  - destruct lt as [v|l' r'']; [done|]. intros [= <- <-]. simpl. lia.
Qed.

(** A path of at least one bit that ends on a leaf: the loop follows it
    and returns the leaf's value, having read exactly the path. *)
Lemma decode_byte_loop_leaf (path : list bool) :
  ∀ (fuel : nat) (tree_part : HuffmanTree) (r r' : R) (v : option Z),
  reads r path r' → path ≠ [] →
  descend tree_part path = Some (TreeLeaf v) →
  length path ≤ fuel →
  decode_byte_loop fuel tree_part r = Some (Ok v, r').
Proof.
  induction path as [|bit path IH]; intros fuel tree_part r r' v Hr Hne Hd Hfuel; [done|].
  inversion Hr as [|? ? r1 ? ? Hbit Hrest]; subst.
  destruct fuel as [|fuel]; [simpl in Hfuel; lia|].
  destruct tree_part as [|l rt]; [done|].
  cbn [descend] in Hd. cbn [decode_byte_loop]. unfold decode_byte_body. rewrite Hbit.
  assert (Hgo : (if bit then getRight (TreeInternal l rt) else getLeft (TreeInternal l rt))
                = Ok (if bit then rt else l)) by by destruct bit.
  rewrite Hgo. clear Hgo.
  destruct path as [|bit' path].
  - inversion Hrest; subst. cbn [descend] in Hd. injection Hd as Hd. by rewrite Hd.
  - destruct (if bit then rt else l) as [|l' r''] eqn:Hchild; [done|].
    cbn [isinstance_TreeLeaf]. apply (IH fuel (TreeInternal l' r'') r1 r' v); try done.
    simpl in *. lia.
Qed.

(** The source runs dry after a path that has not reached a leaf (or at
    once): the loop returns [None]. *)
Lemma decode_byte_loop_exhausted (path : list bool) :
  ∀ (fuel : nat) (tree_part t' : HuffmanTree) (r r' : R),
  reads r path r' → readbit r' = None →
  descend tree_part path = Some t' →
  path = [] ∨ isinstance_TreeLeaf t' = false →
  length path < fuel →
  decode_byte_loop fuel tree_part r = Some (Ok None, r').
Proof.
  induction path as [|bit path IH]; intros fuel tree_part t' r r' Hr Heof Hd Hin Hfuel.
  - inversion Hr; subst. destruct fuel as [|fuel]; [lia|].
    cbn [decode_byte_loop]. unfold decode_byte_body. by rewrite Heof.
  - inversion Hr as [|? ? r1 ? ? Hbit Hrest]; subst.
    destruct fuel as [|fuel]; [lia|].
    destruct tree_part as [|l rt]; [done|].
    destruct Hin as [|Hin]; [done|].
    cbn [descend] in Hd. cbn [decode_byte_loop]. unfold decode_byte_body. rewrite Hbit.
    assert (Hgo : (if bit then getRight (TreeInternal l rt) else getLeft (TreeInternal l rt))
                  = Ok (if bit then rt else l)) by by destruct bit.
    rewrite Hgo. clear Hgo.
    destruct (if bit then rt else l) as [v|l' r''] eqn:Hchild.
    + destruct path; [|done]. cbn [descend] in Hd. injection Hd as <-.
      discriminate Hin.
    + cbn [isinstance_TreeLeaf].
      apply (IH fuel (TreeInternal l' r'') t' r1 r'); try done; [by right|].
      simpl in *. lia.
Qed.

Lemma decode_byte_leaf (tree : HuffmanTree) (path : list bool) (r r' : R) (v : option Z) :
  reads r path r' → path ≠ [] → descend tree path = Some (TreeLeaf v) →
  decode_byte tree r = Some (Ok v, r').
Proof.
  intros Hr Hne Hd. apply (decode_byte_loop_leaf path); try done.
  apply descend_leaf_height in Hd. lia.
Qed.

Lemma decode_byte_exhausted (tree t' : HuffmanTree) (path : list bool) (r r' : R) :
  reads r path r' → readbit r' = None → descend tree path = Some t' →
  path = [] ∨ isinstance_TreeLeaf t' = false →
  decode_byte tree r = Some (Ok None, r').
Proof.
  intros Hr Heof Hd Hin. apply (decode_byte_loop_exhausted path _ _ t'); try done.
  destruct Hin as [->|Hin]; [simpl; lia|].
  destruct t' as [|l rt]; [done|]. apply descend_internal_height in Hd. lia.
Qed.

(** A tree that is a single leaf: the loop still reads a bit first, and
    then asks the leaf for a child. *)
Lemma decode_byte_root_leaf (value : option Z) (r r' : R) (bit : bool) :
  readbit r = Some (bit, r') →
  decode_byte (TreeLeaf value) r = Some (Raise AttributeError, r').
Proof.
  intros Hbit. unfold decode_byte. cbn [height decode_byte_loop].
  unfold decode_byte_body. rewrite Hbit. by destruct bit.
Qed.

End decode_byte.

(** On a source that never ends the loop still stops: under [tree_ab]
    the first 0 is the codeword of 'a'. *)
Example decode_byte_zeros : decode_byte tree_ab Zeros = Some (Ok (Some 97%Z), Zeros).
Proof. reflexivity. Qed.

(** ** The loop of [decompress] *)

Lemma codewords_length (tree : HuffmanTree) (syms : list Z) (paths : list (list bool)) :
  Forall2 (codeword tree) syms paths → length syms ≤ length (concat paths).
Proof.
  induction 1 as [|s p syms paths [Hne _] _ IH]; [done|].
  cbn [concat length]. rewrite length_app. destruct p; [done|]. simpl. lia.
Qed.

(** Decoding a run of codewords writes their bytes, in order, and goes
    on with what follows them. *)
Lemma decode_then_loop_codewords (tree : HuffmanTree) (syms : list Z)
    (paths : list (list bool)) :
  Forall2 (codeword tree) syms paths → Forall is_byte syms →
  ∀ (fuel : nat) (tail : list bool) (out : list Z),
  decode_then_loop (length syms + fuel) tree (concat paths ++ tail)
    {| w_out := out; w_pending := [] |}
  = decode_then_loop fuel tree tail {| w_out := out ++ syms; w_pending := [] |}.
Proof.
  induction 1 as [|s p syms paths [Hne Hd] _ IH]; intros Hbytes fuel tail out.
  - by rewrite app_nil_r.
  - apply Forall_cons in Hbytes as [Hs Hbytes].
    cbn [concat length]. rewrite <- app_assoc.
    unfold decode_then_loop at 1.
    rewrite (decode_byte_leaf tree p _ (concat paths ++ tail) (Some s));
      [|apply reads_list|done|done].
    cbn [Nat.add decompress_loop d_byte d_tree d_reader d_writer].
    rewrite writebits_byte by done. cbn [w_out].
    rewrite byte_of_bits_of_byte by done.
    fold (decode_then_loop (length syms + fuel) tree (concat paths ++ tail)
            {| w_out := out ++ [s]; w_pending := [] |}).
    rewrite IH by done. by rewrite <- app_assoc.
Qed.

(** The same for leaves holding any integers: the byte written for a
    value is made of its low 8 bits. *)
Lemma decode_then_loop_codewords_low (tree : HuffmanTree) (syms : list Z)
    (paths : list (list bool)) :
  Forall2 (codeword tree) syms paths →
  ∀ (fuel : nat) (tail : list bool) (out : list Z),
  decode_then_loop (length syms + fuel) tree (concat paths ++ tail)
    {| w_out := out; w_pending := [] |}
  = decode_then_loop fuel tree tail
      {| w_out := out ++ map (λ v, (v mod 256)%Z) syms; w_pending := [] |}.
Proof.
  induction 1 as [|s p syms paths [Hne Hd] _ IH]; intros fuel tail out.
  - by rewrite app_nil_r.
  - cbn [concat length map]. rewrite <- app_assoc.
    unfold decode_then_loop at 1.
    rewrite (decode_byte_leaf tree p _ (concat paths ++ tail) (Some s));
      [|apply reads_list|done|done].
    cbn [Nat.add decompress_loop d_byte d_tree d_reader d_writer].
    rewrite writebits_byte by done. cbn [w_out].
    rewrite byte_of_bits_low.
    fold (decode_then_loop (length syms + fuel) tree (concat paths ++ tail)
            {| w_out := out ++ [(s mod 256)%Z]; w_pending := [] |}).
    rewrite IH. by rewrite <- app_assoc.
Qed.

(** Once [decode_byte] returns [None] the loop is over, with nothing
    more written. *)
Lemma decode_then_loop_stop (fuel : nat) (tree : HuffmanTree) (reader reader' : list bool)
    (writer : BitWriter) :
  decode_byte tree reader = Some (Ok None, reader') →
  decode_then_loop fuel tree reader writer
  = Some (Ok {| d_tree := tree; d_reader := reader'; d_writer := writer; d_byte := None |}).
Proof. intros Hd. unfold decode_then_loop. rewrite Hd. by destruct fuel. Qed.

(** ** The loop of [compress] *)

Lemma write_path_app (p1 p2 : list bool) (w : BitWriter) :
  write_path (p1 ++ p2) w = write_path p2 (write_path p1 w).
Proof. unfold write_path. by rewrite fold_left_app. Qed.

(** With an entry for every byte of the input and for [None], the loop
    writes the paths of the bytes in order, then the path of [None], and
    stops. *)
Lemma compress_loop_paths (input : list Z) (paths : list (list bool)) :
  ∀ (fuel : nat) (st : compress_locals) (eof_path : list bool),
  Forall is_byte input →
  Forall2 (λ b p, c_table st !! Some b = Some p) input paths →
  c_table st !! None = Some eof_path →
  c_reader st = bits_of_bytes input →
  c_end_of_file st = false →
  length input < fuel →
  compress_loop fuel st
  = Some (Ok {| c_tree := c_tree st; c_table := c_table st;
                c_writer := write_path (concat paths ++ eof_path) (c_writer st);
                c_reader := []; c_end_of_file := true |}).
Proof.
  revert paths.
  induction input as [|b input IH];
    intros paths fuel st eof_path Hbytes Hpaths Heof Hreader Hrun Hfuel.
  - apply Forall2_nil_inv_l in Hpaths as ->.
    destruct fuel as [|fuel]; [simpl in Hfuel; lia|].
    cbn [compress_loop]. rewrite Hrun. unfold compress_body.
    rewrite Hreader. cbn [bits_of_bytes map concat readbits].
    unfold readbit at 1. cbn [BitReader_source]. rewrite Heof.
    by destruct fuel.
  - apply Forall2_cons_inv_l in Hpaths as (p & paths' & Hp & Hpaths & ->).
    apply Forall_cons in Hbytes as [Hb Hbytes].
    destruct fuel as [|fuel]; [simpl in Hfuel; lia|].
    cbn [compress_loop]. rewrite Hrun. unfold compress_body.
    rewrite Hreader. unfold bits_of_bytes. cbn [map concat].
    rewrite readbits_byte by done. rewrite Hp.
    rewrite (IH paths' fuel _ eof_path); try done; [|simpl in *; lia].
    cbn [c_tree c_table c_writer concat].
    by rewrite <- (app_assoc p), (write_path_app p).
Qed.

(** A byte without an entry stops the loop with a [KeyError]. *)
Lemma compress_loop_unknown (input : list Z) :
  ∀ (fuel : nat) (st : compress_locals),
  Forall is_byte input →
  (∃ b, b ∈ input ∧ c_table st !! Some b = None) →
  c_reader st = bits_of_bytes input →
  c_end_of_file st = false →
  length input ≤ fuel →
  ∃ b, b ∈ input ∧ c_table st !! Some b = None
       ∧ compress_loop fuel st = Some (Raise (KeyError (Some b))).
Proof.
  induction input as [|b input IH]; intros fuel st Hbytes Hmiss Hreader Hrun Hfuel.
  - destruct Hmiss as (b & Hb & _). by apply elem_of_nil in Hb.
  - apply Forall_cons in Hbytes as [Hb Hbytes].
    destruct fuel as [|fuel]; [simpl in Hfuel; lia|].
    cbn [compress_loop]. rewrite Hrun. unfold compress_body.
    rewrite Hreader. unfold bits_of_bytes. cbn [map concat].
    rewrite readbits_byte by done.
    destruct (c_table st !! Some b) as [p|] eqn:Hp.
    + destruct (IH fuel {| c_tree := c_tree st; c_table := c_table st;
                           c_writer := write_path p (c_writer st);
                           c_reader := concat (map bits_of_byte input);
                           c_end_of_file := c_end_of_file st |})
        as (b' & Hin & Hnone & Hraise); try done.
      * destruct Hmiss as (b' & [->|Hin]%elem_of_cons & Hnone); [congruence|].
        by exists b'.
      * simpl in *. lia.
      * exists b'. split_and!; [by apply elem_of_cons; right|done|done].
    + exists b. split_and!; [by apply elem_of_cons; left|done|done].
Qed.

(** The paths the table holds for the bytes of an input it covers. *)
Lemma table_paths (tree : HuffmanTree) (input : list Z) :
  (∀ b, b ∈ input → Some b ∈ leaves tree) →
  ∃ paths, Forall2 (λ b p, make_encoding_table tree !! Some b = Some p) input paths.
Proof.
  induction input as [|b input IH]; intros Hcover; [by exists []|].
  destruct IH as [paths Hpaths].
  { intros b' Hb'. apply Hcover. by apply elem_of_cons; right. }
  destruct (table_complete tree (Some b)) as [p Hp].
  { apply Hcover. by apply elem_of_cons; left. }
  exists (p :: paths). by constructor.
Qed.

(** ** The example tree format *)

Lemma tag_load_fuel_dump (t : HuffmanTree) :
  ∀ (fuel : nat) (rest : list Z),
  length (tag_dump t) ≤ fuel → tag_load_fuel fuel (tag_dump t ++ rest) = Some (t, rest).
Proof.
  induction t as [[v|]|l IHl r IHr]; intros fuel rest Hfuel.
  - destruct fuel as [|fuel]; [simpl in Hfuel; lia|]. done.
  - destruct fuel as [|fuel]; [simpl in Hfuel; lia|]. done.
  - destruct fuel as [|fuel]; [simpl in Hfuel; lia|].
    cbn [tag_dump length] in *. rewrite length_app in Hfuel.
    cbn [app tag_load_fuel]. rewrite <- app_assoc.
    rewrite IHl by lia. by rewrite IHr by lia.
Qed.

Lemma tag_pickle_round_trip : @PickleRoundTrip tag_pickle.
Proof.
  intros tree rest. cbn [pickle_load pickle_dump tag_pickle].
  apply tag_load_fuel_dump. rewrite length_app. lia.
Qed.

(** ** Packing bits into bytes *)

Lemma bytes_of_bits_of_bytes (stream : list Z) :
  Forall is_byte stream → bytes_of_bits (bits_of_bytes stream) = stream.
Proof.
  induction 1 as [|z stream Hz _ IH]; [done|].
  unfold bits_of_bytes. cbn [map concat].
  change (bits_of_byte z ++ concat (map bits_of_byte stream))
    with (Z.testbit z 7 :: Z.testbit z 6 :: Z.testbit z 5 :: Z.testbit z 4
          :: Z.testbit z 3 :: Z.testbit z 2 :: Z.testbit z 1 :: Z.testbit z 0
          :: bits_of_bytes stream).
  cbn [bytes_of_bits]. rewrite IH. f_equal. by apply byte_of_bits_of_byte.
Qed.

Lemma pad_length_lt (n : nat) : pad_length n < 8.
Proof. unfold pad_length. apply Nat.mod_upper_bound. lia. Qed.

Lemma pad_length_mod (a r : nat) : r < 8 → pad_length (8 * a + r) = pad_length r.
Proof. intros Hr. unfold pad_length. zify. Z.to_euclidean_division_equations. lia. Qed.

Lemma round_up_8_pad (n : nat) : n + pad_length n = round_up_8 n.
Proof. unfold pad_length, round_up_8. zify. Z.to_euclidean_division_equations. lia. Qed.

(** ** [compress] and [decompress] as wholes *)

Section codec.
Context `{Pickle}.

(** What [compress] leaves in [compressed] when the table has a path for
    every byte of the input and for [None]. *)
Lemma compress_artifact (tree : HuffmanTree) (input compressed : list Z)
    (paths : list (list bool)) (eof_path : list bool) :
  Forall is_byte input →
  Forall2 (λ b p, make_encoding_table tree !! Some b = Some p) input paths →
  make_encoding_table tree !! None = Some eof_path →
  ∃ payload,
    compress tree input compressed
    = Some (Ok {| c_tree := tree; c_table := make_encoding_table tree;
                  c_writer := {| w_out := compressed ++ pickle_dump tree ++ payload;
                                 w_pending := [] |};
                  c_reader := []; c_end_of_file := true |})
    ∧ Forall is_byte payload
    ∧ bits_of_bytes payload
      = (concat paths ++ eof_path)
        ++ repeat false (pad_length (length (concat paths ++ eof_path))).
Proof.
  intros Hbytes Hpaths Heof. unfold compress.
  rewrite (compress_loop_paths input paths _ _ eof_path); try done; [|simpl; lia].
  cbn [c_tree c_table c_writer c_reader c_end_of_file].
  set (bits := concat paths ++ eof_path).
  set (w0 := new_BitWriter (write_tree tree compressed)).
  assert (Hw1 : wrote w0 (write_path bits w0) bits) by (apply write_path_wrote; simpl; lia).
  destruct (flush_wrote (write_path bits w0)) as (k & Hw2 & Hpend & Hk).
  { by destruct Hw1 as (? & _ & _ & _ & ?). }
  assert (Hkbits : k = pad_length (length bits)).
  { destruct Hw1 as (e1 & _ & _ & Hb1 & Hlt). cbn [w0 new_BitWriter w_pending app] in Hb1.
    rewrite <- Hb1, length_app, bits_of_bytes_length, pad_length_mod by done. done. }
  destruct (wrote_app _ _ _ _ _ Hw1 Hw2) as (payload & Hout & Hpay & Hbits & _).
  rewrite Hpend, app_nil_r in Hbits. cbn [w0 new_BitWriter w_pending w_out app] in Hbits, Hout.
  exists payload. split_and!; [|done|by rewrite Hbits, Hkbits].
  destruct (flush (write_path bits w0)) as [out pending]. cbn [w_out w_pending] in *.
  subst out pending. unfold write_tree. by rewrite <- app_assoc.
Qed.

Lemma decompress_unfold (compressed uncompressed : list Z) :
  decompress compressed uncompressed
  = match read_tree compressed with
    | Raise e => Some (Raise e)
    | Ok (tree, compressed') =>
        match decode_then_loop (S (length (BitReader compressed'))) tree
                (BitReader compressed') (new_BitWriter uncompressed) with
        | None => None
        | Some (Raise e) => Some (Raise e)
        | Some (Ok st) =>
            Some (Ok {| d_tree := d_tree st; d_reader := d_reader st;
                        d_writer := flush (d_writer st); d_byte := d_byte st |})
        end
    end.
Proof.
  unfold decompress, decode_then_loop.
  destruct (read_tree compressed) as [[tree compressed']|e]; [|done].
  by destruct (decode_byte tree (BitReader compressed')) as [[[byte|e] reader']|].
Qed.

(** A payload made of codewords of bytes followed by bits on which
    [decode_byte] returns [None]: [decompress] writes the bytes and
    returns. *)
Lemma decompress_codewords (tree : HuffmanTree) (syms : list Z)
    (paths : list (list bool)) (payload uncompressed : list Z) (tail rest : list bool) :
  PickleRoundTrip →
  Forall2 (codeword tree) syms paths → Forall is_byte syms →
  bits_of_bytes payload = concat paths ++ tail →
  decode_byte tree tail = Some (Ok None, rest) →
  decompress (pickle_dump tree ++ payload) uncompressed
  = Some (Ok {| d_tree := tree; d_reader := rest;
                d_writer := {| w_out := uncompressed ++ syms; w_pending := [] |};
                d_byte := None |}).
Proof.
  intros Hpickle Hcw Hbytes Hpayload Htail.
  rewrite decompress_unfold. unfold read_tree. rewrite Hpickle.
  unfold BitReader. rewrite Hpayload.
  pose proof (codewords_length tree syms paths Hcw) as Hlen.
  replace (S (length (concat paths ++ tail)))
    with (length syms + (S (length (concat paths ++ tail)) - length syms))
    by (rewrite length_app; lia).
  unfold new_BitWriter.
  rewrite (decode_then_loop_codewords tree syms paths) by done.
  by rewrite (decode_then_loop_stop _ _ _ rest).
Qed.

(** The same from any stream whose tree [read_tree] returns, with leaves
    holding any integers. *)
Lemma decompress_read_codewords (compressed uncompressed payload : list Z)
    (tree : HuffmanTree) (syms : list Z) (paths : list (list bool))
    (tail rest : list bool) :
  read_tree compressed = Ok (tree, payload) →
  Forall2 (codeword tree) syms paths →
  bits_of_bytes payload = concat paths ++ tail →
  decode_byte tree tail = Some (Ok None, rest) →
  decompress compressed uncompressed
  = Some (Ok {| d_tree := tree; d_reader := rest;
                d_writer := {| w_out := uncompressed ++ map (λ v, (v mod 256)%Z) syms;
                               w_pending := [] |};
                d_byte := None |}).
Proof.
  intros Hread Hcw Hpayload Htail.
  rewrite decompress_unfold, Hread.
  unfold BitReader. rewrite Hpayload.
  pose proof (codewords_length tree syms paths Hcw) as Hlen.
  replace (S (length (concat paths ++ tail)))
    with (length syms + (S (length (concat paths ++ tail)) - length syms))
    by (rewrite length_app; lia).
  unfold new_BitWriter.
  rewrite (decode_then_loop_codewords_low tree syms paths) by done.
  by rewrite (decode_then_loop_stop _ _ _ rest).
Qed.

End codec.

(** The table's paths are codewords when the root is an internal node. *)
Lemma table_codewords (l r : HuffmanTree) (input : list Z) (paths : list (list bool)) :
  Forall2 (λ b p, make_encoding_table (TreeInternal l r) !! Some b = Some p) input paths →
  Forall2 (codeword (TreeInternal l r)) input paths.
Proof.
  intros Hpaths. eapply Forall2_impl; [exact Hpaths|].
  intros b p Hp%table_sound. split; [|done]. by intros ->.
Qed.

(** ** The fuel is enough *)

Lemma decode_byte_loop_consumes (fuel : nat) :
  ∀ (tree_part : HuffmanTree) (r r' : list bool) (v : Z),
  decode_byte_loop fuel tree_part r = Some (Ok (Some v), r') → length r' < length r.
Proof.
  induction fuel as [|fuel IH]; intros tree_part r r' v Hloop; [done|].
  cbn [decode_byte_loop] in Hloop. unfold decode_byte_body in Hloop.
  destruct r as [|bit r1]; [done|]. cbn [readbit BitReader_source] in Hloop.
  destruct (if bit then getRight tree_part else getLeft tree_part) as [tp|e]; [|done].
  destruct tp as [w|lt rt]; cbn [isinstance_TreeLeaf getValue] in Hloop.
  - simplify_eq. simpl. lia.
  - apply IH in Hloop. simpl. lia.
Qed.

Lemma decode_byte_loop_length (fuel : nat) :
  ∀ (tree_part : HuffmanTree) (r r' : list bool) (x : result (option Z)),
  decode_byte_loop fuel tree_part r = Some (x, r') → length r' ≤ length r.
Proof.
  induction fuel as [|fuel IH]; intros tree_part r r' x Hloop; [done|].
  cbn [decode_byte_loop] in Hloop. unfold decode_byte_body in Hloop.
  destruct r as [|bit r1]; [by simplify_eq/=|]. cbn [readbit BitReader_source] in Hloop.
  destruct (if bit then getRight tree_part else getLeft tree_part) as [tp|e];
    [|simplify_eq; simpl; lia].
  destruct tp as [w|lt rt]; cbn [isinstance_TreeLeaf getValue] in Hloop.
  - simplify_eq. simpl. lia.
  - apply IH in Hloop. simpl. lia.
Qed.

Lemma readbits_length (n : nat) :
  ∀ (r r' : list bool) (v : Z), readbits n r = Some (v, r') → length r = n + length r'.
Proof.
  induction n as [|n IH]; intros r r' v Hread; [by simplify_eq/=|].
  cbn [readbits] in Hread. destruct r as [|bit r1]; [done|].
  cbn [readbit BitReader_source] in Hread.
  destruct (readbits n r1) as [[v1 r2]|] eqn:Hn; [|done].
  apply IH in Hn. simplify_eq. simpl. lia.
Qed.

Section totality.
Context `{Pickle}.

Lemma decompress_loop_total (fuel : nat) :
  ∀ st, length (d_reader st) < fuel → is_Some (decompress_loop fuel st).
Proof.
  induction fuel as [|fuel IH]; intros st Hfuel; [lia|].
  cbn [decompress_loop]. destruct (d_byte st) as [byte|]; [|by eexists].
  destruct (decode_byte_total (d_tree st) (d_reader st)) as [[res reader] Hdec].
  rewrite Hdec. destruct res as [[byte'|]|e]; [|by destruct fuel; eexists|by eexists].
  apply IH. cbn [d_reader]. apply decode_byte_loop_consumes in Hdec. lia.
Qed.

(** [decompress] comes back on every stream. *)
Lemma decompress_total (compressed uncompressed : list Z) :
  is_Some (decompress compressed uncompressed).
Proof.
  unfold decompress. destruct (read_tree compressed) as [[tree compressed']|e]; [|by eexists].
  destruct (decode_byte_total tree (BitReader compressed')) as [[res reader] Hdec].
  rewrite Hdec. destruct res as [byte|e]; [|by eexists].
  destruct (decompress_loop_total (S (length (BitReader compressed')))
              {| d_tree := tree; d_reader := reader;
                 d_writer := new_BitWriter uncompressed; d_byte := byte |})
    as [[st|e] Hloop].
  - cbn [d_reader]. apply decode_byte_loop_length in Hdec. lia.
  - rewrite Hloop. by eexists.
  - rewrite Hloop. by eexists.
Qed.

Lemma compress_loop_total (fuel : nat) :
  ∀ st, length (c_reader st) < 8 * fuel → is_Some (compress_loop fuel st).
Proof.
  induction fuel as [|fuel IH]; intros st Hfuel; [lia|].
  cbn [compress_loop]. destruct (c_end_of_file st); [by eexists|].
  unfold compress_body.
  destruct (readbits 8 (c_reader st)) as [[byte reader]|] eqn:Hread.
  - destruct (c_table st !! Some byte) as [path|]; [|by eexists].
    apply IH. cbn [c_reader]. apply readbits_length in Hread. lia.
  - destruct (c_table st !! None) as [path|]; [|by eexists].
    destruct fuel; by eexists.
Qed.

(** [compress] comes back on every tree and every input. *)
Lemma compress_total (tree : HuffmanTree) (input compressed : list Z) :
  is_Some (compress tree input compressed).
Proof.
  unfold compress.
  destruct (compress_loop_total (S (length input))
              {| c_tree := tree; c_table := make_encoding_table tree;
                 c_writer := new_BitWriter (write_tree tree compressed);
                 c_reader := BitReader input; c_end_of_file := false |})
    as [[st|e] Hloop].
  - cbn [c_reader]. unfold BitReader. rewrite bits_of_bytes_length. lia.
  - rewrite Hloop. by eexists.
  - rewrite Hloop. by eexists.
Qed.

End totality.

(** * The claims *)

(** C1. Round trip. For every byte sequence [input] (the empty one
    included) and every tree whose leaves hold the end-of-stream marker
    and every byte value of [input], [compress] into an empty stream
    followed by [decompress] of that stream writes exactly [input]: the
    loop of [decompress] ends with [byte = None] after [length input]
    bytes, and what it leaves unread is fewer than eight zero bits, the
    padding after the sentinel's path. Uniqueness of the leaf values is
    not needed. *)
Theorem C1_round_trip `{Pickle} (T : HuffmanTree) (input u : list Z) :
  PickleRoundTrip →
  Forall is_byte input →
  None ∈ leaves T →
  (∀ b, b ∈ input → Some b ∈ leaves T) →
  ∃ cst dst k,
    compress T input [] = Some (Ok cst)
    ∧ decompress (w_out (c_writer cst)) u = Some (Ok dst)
    ∧ w_out (d_writer dst) = u ++ input
    ∧ length (w_out (d_writer dst)) = length u + length input
    ∧ d_byte dst = None
    ∧ k < 8 ∧ d_reader dst = repeat false k.
Proof.
  intros Hpickle Hbytes Heof Hcover.
  destruct (table_paths T input Hcover) as [paths Hpaths].
  destruct (table_complete T None Heof) as [eof_path Heofp].
  destruct (compress_artifact T input [] paths eof_path Hbytes Hpaths Heofp)
    as (payload & Hcompress & _ & Hbits).
  set (k := pad_length (length (concat paths ++ eof_path))) in *.
  rewrite <- app_assoc in Hbits. cbn [app] in Hcompress.
  assert (Hgoal : decompress (pickle_dump T ++ payload) u
            = Some (Ok {| d_tree := T; d_reader := repeat false k;
                          d_writer := {| w_out := u ++ input; w_pending := [] |};
                          d_byte := None |})).
  { destruct T as [v|l r].
    - (* a single leaf: it holds the marker, and the input is empty *)
      apply list_elem_of_singleton in Heof. subst v.
      destruct input as [|b input].
      2:{ specialize (Hcover b (list_elem_of_here _ _)).
          by apply list_elem_of_singleton in Hcover. }
      apply Forall2_nil_inv_l in Hpaths. subst paths.
      apply table_sound in Heofp. destruct eof_path; [|done].
      apply (decompress_codewords _ [] [] _ _ (repeat false k)); try done.
    - apply (decompress_codewords _ input paths _ _ (eof_path ++ repeat false k));
        try done; [by apply table_codewords|].
      apply table_sound in Heofp.
      apply (decode_byte_leaf _ eof_path); [apply reads_list| |done].
      by intros ->. }
  eexists _, _, k. split_and!; [exact Hcompress|exact Hgoal|done| |done| |done].
  - cbn [d_writer w_out]. by rewrite length_app.
  - apply pad_length_lt.
Qed.

Lemma C1_round_trip_witness :
  @PickleRoundTrip tag_pickle
  ∧ Forall is_byte [97; 98]%Z
  ∧ None ∈ leaves tree_ab
  ∧ ∃ cst dst k,
      compress (H := tag_pickle) tree_ab [97; 98]%Z [] = Some (Ok cst)
      ∧ decompress (H := tag_pickle) (w_out (c_writer cst)) [] = Some (Ok dst)
      ∧ w_out (d_writer dst) = [] ++ [97; 98]%Z
      ∧ length (w_out (d_writer dst)) = length (@nil Z) + length [97; 98]%Z
      ∧ d_byte dst = None
      ∧ k < 8 ∧ d_reader dst = repeat false k.
Proof.
  assert (Hb : Forall is_byte [97; 98]%Z) by (repeat constructor; unfold is_byte; lia).
  assert (He : None ∈ leaves tree_ab) by (cbn; rewrite !elem_of_cons; auto).
  split_and!; [apply tag_pickle_round_trip|exact Hb|exact He|].
  apply (C1_round_trip (H := tag_pickle) tree_ab [97; 98]%Z []);
    [apply tag_pickle_round_trip|exact Hb|exact He|].
  intros b Hin.
  apply elem_of_cons in Hin as [->|Hin]; [apply list_elem_of_here|].
  apply elem_of_cons in Hin as [->|Hin]; [apply list_elem_of_further, list_elem_of_here|].
  by apply elem_of_nil in Hin.
Defined.

(** C2, as stated, fails. The stream [compress] produces for eight 'a'
    and four 'b' under [tree_ab] ends with the byte 192, whose first two
    bits are the sentinel's path. Cut immediately before that byte, the
    stream makes [decompress] return normally with the twelve bytes; cut
    after the first payload byte, it returns normally with eight. No
    error reaches the caller. *)
Lemma C2_counterexample :
  (∃ cst, compress (H := tag_pickle) tree_ab
            [97; 97; 97; 97; 97; 97; 97; 97; 98; 98; 98; 98]%Z [] = Some (Ok cst)
          ∧ w_out (c_writer cst) = tag_dump tree_ab ++ [0; 170; 192]%Z)
  ∧ (∃ dst, decompress (H := tag_pickle) (tag_dump tree_ab ++ [0; 170]%Z) [] = Some (Ok dst)
            ∧ w_out (d_writer dst) = [97; 97; 97; 97; 97; 97; 97; 97; 98; 98; 98; 98]%Z)
  ∧ (∃ dst, decompress (H := tag_pickle) (tag_dump tree_ab ++ [0]%Z) [] = Some (Ok dst)
            ∧ w_out (d_writer dst) = [97; 97; 97; 97; 97; 97; 97; 97]%Z)
  ∧ ¬ (∃ e, decompress (H := tag_pickle) (tag_dump tree_ab ++ [0; 170]%Z) [] = Some (Raise e)).
Proof.
  split_and!.
  - eexists. split; [by vm_compute|done].
  - eexists. split; [by vm_compute|done].
  - eexists. split; [by vm_compute|done].
  - intros [e He]. vm_compute in He. discriminate He.
Qed.

(** C2, amended. A stream cut inside its serialized tree does surface an
    error: the exception of [read_tree] leaves [decompress]. A stream
    whose tree is read and whose payload is physically exhausted before
    the sentinel leaf is decoded is whole codewords of byte leaves
    followed by a path [cut], possibly empty, that has reached no leaf
    when the bits run out. On such a stream [decompress] raises nothing:
    it returns normally with all bits read, having written one byte per
    whole codeword, the low 8 bits of the leaf's value. *)
Theorem C2_exhausted_stream_returns_normally `{Pickle} (compressed u : list Z) :
  (∀ e, read_tree compressed = Raise e → decompress compressed u = Some (Raise e))
  ∧ (∀ (tree t' : HuffmanTree) (payload syms : list Z)
       (paths : list (list bool)) (cut : list bool),
       read_tree compressed = Ok (tree, payload) →
       Forall2 (codeword tree) syms paths →
       bits_of_bytes payload = concat paths ++ cut →
       descend tree cut = Some t' →
       cut = [] ∨ isinstance_TreeLeaf t' = false →
       ∃ dst, decompress compressed u = Some (Ok dst)
              ∧ w_out (d_writer dst) = u ++ map (λ v, (v mod 256)%Z) syms
              ∧ d_byte dst = None
              ∧ d_reader dst = []).
Proof.
  split.
  - intros e Hread. unfold decompress. by rewrite Hread.
  - intros tree t' payload syms paths cut Hread Hcw Hpayload Hcut Hdangling.
    eexists. split.
    + apply (decompress_read_codewords compressed u payload tree syms paths cut []);
        try done.
      apply (decode_byte_exhausted tree t' cut cut []); try done.
      rewrite <- (app_nil_r cut) at 1. apply reads_list.
    + done.
Qed.

Lemma C2_exhausted_stream_returns_normally_witness :
  (read_tree (H := tag_pickle) [2; 1]%Z = Raise UnpicklingError
   ∧ decompress (H := tag_pickle) [2; 1]%Z [] = Some (Raise UnpicklingError))
  ∧ read_tree (H := tag_pickle) (tag_dump tree_ab ++ [85%Z]) = Ok (tree_ab, [85%Z])
  ∧ Forall2 (codeword tree_ab) [97; 98; 98; 98]%Z
      [[false]; [true; false]; [true; false]; [true; false]]
  ∧ bits_of_bytes [85%Z]
    = concat [[false]; [true; false]; [true; false]; [true; false]] ++ [true]
  ∧ ∃ dst, decompress (H := tag_pickle) (tag_dump tree_ab ++ [85%Z]) [] = Some (Ok dst)
           ∧ w_out (d_writer dst) = [] ++ map (λ v, (v mod 256)%Z) [97; 98; 98; 98]%Z
           ∧ d_byte dst = None
           ∧ d_reader dst = [].
Proof.
  assert (Hcw : Forall2 (codeword tree_ab) [97; 98; 98; 98]%Z
                  [[false]; [true; false]; [true; false]; [true; false]]).
  { repeat constructor; discriminate. }
  split.
  { split; [reflexivity|].
    apply (proj1 (C2_exhausted_stream_returns_normally (H := tag_pickle) [2; 1]%Z [])).
    reflexivity. }
  split_and!; [reflexivity|exact Hcw|reflexivity|].
  apply (proj2 (C2_exhausted_stream_returns_normally (H := tag_pickle)
                  (tag_dump tree_ab ++ [85%Z]) [])
           tree_ab (TreeInternal (TreeLeaf (Some 98%Z)) (TreeLeaf None))
           [85%Z] [97; 98; 98; 98]%Z
           [[false]; [true; false]; [true; false]; [true; false]] [true]);
    [reflexivity|exact Hcw|reflexivity|reflexivity|by right].
Defined.

(** C3. With a table entry for every byte of the input and for [None],
    what [compress] appends to [compressed] is the serialization of the
    tree followed by [bitpacked] of the paths of the input bytes, in
    input order, and then the path of [None], once. The bits of that
    payload are those paths followed by zero bits only, and their number
    is the sum of the lengths of the emitted paths rounded up to the next
    multiple of 8. *)
Theorem C3_compress_artifact `{Pickle} (tree : HuffmanTree) (input compressed : list Z)
    (paths : list (list bool)) (eof_path : list bool) :
  Forall is_byte input →
  Forall2 (λ b p, make_encoding_table tree !! Some b = Some p) input paths →
  make_encoding_table tree !! None = Some eof_path →
  let emitted := concat paths ++ eof_path in
  let payload := bitpacked emitted in
  (∃ st, compress tree input compressed = Some (Ok st)
         ∧ w_out (c_writer st) = compressed ++ pickle_dump tree ++ payload)
  ∧ bits_of_bytes payload = emitted ++ repeat false (pad_length (length emitted))
  ∧ 8 * length payload = round_up_8 (list_sum (map length (paths ++ [eof_path]))).
Proof.
  intros Hbytes Hpaths Heof emitted payload.
  destruct (compress_artifact tree input compressed paths eof_path Hbytes Hpaths Heof)
    as (payload' & Hcompress & Hpay & Hbits).
  fold emitted in Hbits.
  assert (Heq : payload' = payload).
  { rewrite <- (bytes_of_bits_of_bytes payload') by done. by rewrite Hbits. }
  subst payload'. split_and!.
  - eexists. split; [exact Hcompress|done].
  - done.
  - rewrite <- bits_of_bytes_length, Hbits, length_app, repeat_length, round_up_8_pad.
    f_equal. unfold emitted.
    rewrite map_app, list_sum_app, length_app, length_concat. simpl. lia.
Qed.

Lemma C3_compress_artifact_witness :
  Forall is_byte [97; 98]%Z
  ∧ Forall2 (λ b p, make_encoding_table tree_ab !! Some b = Some p)
      [97; 98]%Z [[false]; [true; false]]
  ∧ make_encoding_table tree_ab !! None = Some [true; true]
  ∧ (∃ st, compress (H := tag_pickle) tree_ab [97; 98]%Z [] = Some (Ok st)
           ∧ w_out (c_writer st)
             = [] ++ tag_dump tree_ab ++ bitpacked (concat [[false]; [true; false]] ++ [true; true]))
  ∧ bitpacked (concat [[false]; [true; false]] ++ [true; true]) = [88%Z].
Proof.
  assert (Hb : Forall is_byte [97; 98]%Z) by (repeat constructor; unfold is_byte; lia).
  assert (Hp : Forall2 (λ b p, make_encoding_table tree_ab !! Some b = Some p)
                 [97; 98]%Z [[false]; [true; false]]) by (repeat constructor).
  assert (He : make_encoding_table tree_ab !! None = Some [true; true]) by reflexivity.
  split_and!; [exact Hb|exact Hp|exact He| |reflexivity].
  exact (proj1 (C3_compress_artifact (H := tag_pickle) tree_ab [97; 98]%Z []
                  [[false]; [true; false]] [true; true] Hb Hp He)).
Defined.

(** C4. Whatever the source, when reading from it yields the bits of
    [path]: if [path] has at least one bit and leads from the root, left
    on 0 and right on 1, to a leaf, [decode_byte] returns the value of
    that leaf and leaves the source exactly after [path]; if the source
    is exhausted after [path] and [path] has reached no leaf,
    [decode_byte] returns [None]. *)
Theorem C4_decode_byte_traversal `{BitSource R} (tree : HuffmanTree) (r r' : R)
    (path : list bool) :
  reads r path r' →
  (∀ v, path ≠ [] → descend tree path = Some (TreeLeaf v) →
        decode_byte tree r = Some (Ok v, r'))
  ∧ (∀ t', readbit r' = None → descend tree path = Some t' →
           path = [] ∨ isinstance_TreeLeaf t' = false →
           decode_byte tree r = Some (Ok None, r')).
Proof.
  intros Hr. split.
  - intros v Hne Hd. by apply (decode_byte_leaf tree path).
  - intros t' Heof Hd Hin. by apply (decode_byte_exhausted tree t' path).
Qed.

Lemma C4_decode_byte_traversal_witness :
  reads [true; false; true] [true; false] [true]
  ∧ decode_byte tree_ab [true; false; true] = Some (Ok (Some 98%Z), [true])
  ∧ reads [true] [true] []
  ∧ decode_byte tree_ab [true] = Some (Ok None, []).
Proof.
  assert (H1 : reads [true; false; true] [true; false] [true])
    by apply (reads_list [true; false] [true]).
  assert (H2 : reads [true] [true] (@nil bool)) by apply (reads_list [true] []).
  split_and!; [exact H1| |exact H2|].
  - apply (proj1 (C4_decode_byte_traversal tree_ab _ _ _ H1)); [discriminate|reflexivity].
  - apply (proj2 (C4_decode_byte_traversal tree_ab _ _ _ H2)
             (TreeInternal (TreeLeaf (Some 98%Z)) (TreeLeaf None)));
      [reflexivity|reflexivity|by right].
Defined.

(** C5, evaluated where it fails. The tree is the single leaf 65 and the
    source holds the byte 0. [decode_byte] reads one bit and raises,
    because it asks the leaf for its left child; it does not return 65 with
    the source untouched. *)
Theorem C5_decode_byte_single_leaf :
  decode_byte (TreeLeaf (Some 65%Z)) (BitReader [0%Z])
  = Some (Raise AttributeError, [false; false; false; false; false; false; false])
  ∧ decode_byte (TreeLeaf (Some 65%Z)) (BitReader [0%Z])
    ≠ Some (Ok (Some 65%Z), BitReader [0%Z]).
Proof. split; [reflexivity|discriminate]. Qed.

(** C6. When some byte of the input has no entry in the table built from
    the tree, [compress] ends with the [KeyError] of such a byte: the
    exception leaves [compress], which does not return normally. *)
Theorem C6_unknown_symbol_raises `{Pickle} (tree : HuffmanTree) (input compressed : list Z) :
  Forall is_byte input →
  (∃ b, b ∈ input ∧ make_encoding_table tree !! Some b = None) →
  ∃ b, b ∈ input ∧ make_encoding_table tree !! Some b = None
       ∧ compress tree input compressed = Some (Raise (KeyError (Some b))).
Proof.
  intros Hbytes Hmiss. unfold compress.
  destruct (compress_loop_unknown input (S (length input))
              {| c_tree := tree; c_table := make_encoding_table tree;
                 c_writer := new_BitWriter (write_tree tree compressed);
                 c_reader := BitReader input; c_end_of_file := false |})
    as (b & Hin & Hnone & Hraise); try done; [simpl; lia|].
  exists b. split_and!; [done..|]. by rewrite Hraise.
Qed.

Lemma C6_unknown_symbol_raises_witness :
  Forall is_byte [97; 99]%Z
  ∧ (∃ b, b ∈ [97; 99]%Z ∧ make_encoding_table tree_ab !! Some b = None)
  ∧ ∃ b, b ∈ [97; 99]%Z ∧ make_encoding_table tree_ab !! Some b = None
         ∧ compress (H := tag_pickle) tree_ab [97; 99]%Z [] = Some (Raise (KeyError (Some b))).
Proof.
  assert (Hb : Forall is_byte [97; 99]%Z) by (repeat constructor; unfold is_byte; lia).
  assert (Hm : ∃ b, b ∈ [97; 99]%Z ∧ make_encoding_table tree_ab !! Some b = None).
  { exists 99%Z. split; [apply list_elem_of_further, list_elem_of_here|reflexivity]. }
  split_and!; [exact Hb|exact Hm|].
  exact (C6_unknown_symbol_raises (H := tag_pickle) tree_ab [97; 99]%Z [] Hb Hm).
Defined.

(** C7, evaluated where it fails. The tree is a single leaf and the
    source holds the byte 128. The call stops after one pass (as
    [decode_byte_total] shows it always does), but by raising: it neither
    returns a leaf value nor signals exhaustion. *)
Theorem C7_decode_byte_single_leaf_raises :
  decode_byte_loop 1 (TreeLeaf None) (BitReader [128%Z])
  = Some (Raise AttributeError, [false; false; false; false; false; false; false])
  ∧ decode_byte (TreeLeaf None) (BitReader [128%Z])
    = Some (Raise AttributeError, [false; false; false; false; false; false; false])
  ∧ ¬ (∃ v r, decode_byte (TreeLeaf None) (BitReader [128%Z]) = Some (Ok v, r)).
Proof.
  split_and!; [reflexivity|reflexivity|].
  intros (v & r & Hv). discriminate Hv.
Qed.

(** C8. [decode_byte] returns the same value, [None], when the path read
    ends on the leaf that holds the end-of-stream marker and when the
    source runs dry before a leaf is reached. *)
Theorem C8_decode_byte_none_twice `{BitSource R} (tree t' : HuffmanTree)
    (r1 r1' r2 r2' : R) (eof_path cut : list bool) :
  reads r1 eof_path r1' → eof_path ≠ [] →
  descend tree eof_path = Some (TreeLeaf None) →
  reads r2 cut r2' → readbit r2' = None →
  descend tree cut = Some t' → cut = [] ∨ isinstance_TreeLeaf t' = false →
  fst <$> decode_byte tree r1 = Some (Ok None)
  ∧ fst <$> decode_byte tree r2 = Some (Ok None).
Proof.
  intros Hr1 Hne Hd1 Hr2 Heof Hd2 Hin. split.
  - by rewrite (decode_byte_leaf tree eof_path r1 r1' None).
  - by rewrite (decode_byte_exhausted tree t' cut r2 r2').
Qed.

Lemma C8_decode_byte_none_twice_witness :
  reads [true; true; false] [true; true] [false]
  ∧ reads [true] [true] []
  ∧ fst <$> decode_byte tree_ab [true; true; false] = Some (Ok None)
  ∧ fst <$> decode_byte tree_ab [true] = Some (Ok None).
Proof.
  assert (H1 : reads [true; true; false] [true; true] [false])
    by apply (reads_list [true; true] [false]).
  assert (H2 : reads [true] [true] (@nil bool)) by apply (reads_list [true] []).
  split_and!; [exact H1|exact H2|..];
    apply (C8_decode_byte_none_twice tree_ab
             (TreeInternal (TreeLeaf (Some 98%Z)) (TreeLeaf None))
             [true; true; false] [false] [true] [] [true; true] [true] H1);
    try done; by right.
Defined.

(** C10. [None] is the end-of-stream marker at every layer. The entry the
    table holds under [None] is the path to a leaf that stores [None]; on
    that path [decode_byte] returns [None]; at the end of the input
    [compress] writes the path found under [None]; the loop of
    [decompress] stops when [byte] is [None] and only then, otherwise
    writing [byte] and decoding again. So a stream stops being decoded at
    the first codeword of a leaf that stores [None], whatever follows. *)
Theorem C10_sentinel_is_None `{Pickle} :
  (∀ tree path,
     make_encoding_table tree !! None = Some path →
     descend tree path = Some (TreeLeaf None))
  ∧ (∀ tree path (rest : list bool),
       path ≠ [] → descend tree path = Some (TreeLeaf None) →
       decode_byte tree (path ++ rest) = Some (Ok None, rest))
  ∧ (∀ st path,
       readbits 8 (c_reader st) = None → c_table st !! None = Some path →
       compress_body st
       = Ok {| c_tree := c_tree st; c_table := c_table st;
               c_writer := write_path path (c_writer st);
               c_reader := c_reader st; c_end_of_file := true |})
  ∧ (∀ fuel st, d_byte st = None → decompress_loop fuel st = Some (Ok st))
  ∧ (∀ fuel st byte,
       d_byte st = Some byte →
       decompress_loop (S fuel) st
       = decode_then_loop fuel (d_tree st) (d_reader st) (writebits byte 8 (d_writer st))
       ∧ decompress_loop 0 st = None)
  ∧ (∀ tree path rest payload u,
       PickleRoundTrip →
       path ≠ [] → descend tree path = Some (TreeLeaf None) →
       bits_of_bytes payload = path ++ rest →
       ∃ dst, decompress (pickle_dump tree ++ payload) u = Some (Ok dst)
              ∧ w_out (d_writer dst) = u ∧ d_reader dst = rest).
Proof.
  split_and!.
  - intros tree path. apply table_sound.
  - intros tree path rest Hne Hd.
    apply (decode_byte_leaf tree path); [apply reads_list|done|done].
  - intros st path Hread Hpath. unfold compress_body. by rewrite Hread, Hpath.
  - intros fuel st Hbyte. destruct fuel; cbn [decompress_loop]; by rewrite Hbyte.
  - intros fuel st byte Hbyte. cbn [decompress_loop]. rewrite Hbyte. split; [|done].
    unfold decode_then_loop.
    by destruct (decode_byte (d_tree st) (d_reader st)) as [[[byte'|e] reader]|].
  - intros tree path rest payload u Hpickle Hne Hd Hpayload.
    eexists. split.
    + apply (decompress_codewords tree [] [] payload u (path ++ rest) rest);
        [done|constructor|constructor|done|].
      apply (decode_byte_leaf tree path); [apply reads_list|done|done].
    + cbn [d_writer d_reader w_out]. by rewrite app_nil_r.
Qed.

Lemma C10_sentinel_is_None_witness :
  make_encoding_table tree_ab !! None = Some [true; true]
  ∧ descend tree_ab [true; true] = Some (TreeLeaf None)
  ∧ decode_byte tree_ab ([true; true] ++ [false; true; false]) = Some (Ok None, [false; true; false])
  ∧ ∃ dst, decompress (H := tag_pickle) (tag_dump tree_ab ++ [197%Z]) [] = Some (Ok dst)
           ∧ w_out (d_writer dst) = []
           ∧ d_reader dst = [false; false; false; true; false; true].
Proof.
  assert (Ht : make_encoding_table tree_ab !! None = Some [true; true]) by reflexivity.
  pose proof (C10_sentinel_is_None (H := tag_pickle)) as (H1 & H2 & _ & _ & _ & H6).
  pose proof (H1 tree_ab [true; true] Ht) as Hd.
  split_and!; [exact Ht|exact Hd| |].
  - apply H2; [discriminate|exact Hd].
  - apply (H6 tree_ab [true; true] [false; false; false; true; false; true] [197%Z] []);
      [apply tag_pickle_round_trip|discriminate|exact Hd|reflexivity].
Defined.

(** * Further properties of the code *)

(** ** [decode_byte], read backwards *)

Lemma descend_leaf_in_leaves (t : HuffmanTree) (path : list bool) (v : option Z) :
  descend t path = Some (TreeLeaf v) → v ∈ leaves t.
Proof.
  revert t. induction path as [|bit path IH]; intros t Hd.
  - cbn [descend] in Hd. injection Hd as ->. apply list_elem_of_here.
  - destruct t as [|l r]; [done|]. cbn [descend leaves] in *.
    apply IH in Hd. apply elem_of_app. destruct bit; auto.
Qed.

Section decode_byte_inversion.
Context `{BitSource R}.

Lemma decode_byte_loop_mono (fuel : nat) :
  ∀ (fuel' : nat) (tree_part : HuffmanTree) (r : R) res,
  decode_byte_loop fuel tree_part r = Some res → fuel ≤ fuel' →
  decode_byte_loop fuel' tree_part r = Some res.
Proof.
  induction fuel as [|fuel IH]; intros fuel' tree_part r res Hloop Hle; [done|].
  destruct fuel' as [|fuel']; [lia|].
  cbn [decode_byte_loop] in *.
  destruct (decode_byte_body tree_part r) as [[tp|v|e] r1]; [|done..].
  apply (IH fuel'); [done|lia].
Qed.

(** What a finished run of the loop says about the bits it read. *)
Lemma decode_byte_loop_inv (fuel : nat) :
  ∀ (tree_part : HuffmanTree) (r r' : R) (x : result (option Z)),
  decode_byte_loop fuel tree_part r = Some (x, r') →
  ∃ path, reads r path r'
    ∧ match x with
      | Ok v =>
          (path ≠ [] ∧ descend tree_part path = Some (TreeLeaf v))
          ∨ (v = None ∧ readbit r' = None
             ∧ ∃ t', descend tree_part path = Some t'
                     ∧ (path = [] ∨ isinstance_TreeLeaf t' = false))
      | Raise e =>
          e = AttributeError ∧ isinstance_TreeLeaf tree_part = true ∧ length path = 1
      end.
Proof.
  induction fuel as [|fuel IH]; intros tree_part r r' x Hloop; [done|].
  cbn [decode_byte_loop] in Hloop. unfold decode_byte_body in Hloop.
  destruct (readbit r) as [[bit r1]|] eqn:Hbit.
  2:{ simplify_eq. exists []. split; [constructor|]. right.
      split_and!; [done..|]. exists tree_part. split; [done|by left]. }
  destruct tree_part as [w|lt rt].
  { assert (Hx : x = Raise AttributeError ∧ r' = r1)
      by (destruct bit; cbn [getLeft getRight] in Hloop; by simplify_eq).
    destruct Hx as [-> ->]. exists [bit].
    split; [by apply reads_cons with (r1 := r1); [|constructor]|done]. }
  assert (Hgo : (if bit then getRight (TreeInternal lt rt) else getLeft (TreeInternal lt rt))
                = Ok (if bit then rt else lt)) by by destruct bit.
  rewrite Hgo in Hloop. clear Hgo.
  destruct (if bit then rt else lt) as [w|l' r''] eqn:Hchild;
    cbn [isinstance_TreeLeaf getValue] in Hloop.
  - simplify_eq. exists [bit]. split; [eapply reads_cons; [done|constructor]|].
    left. split; [done|]. cbn [descend]. by rewrite Hchild.
  - apply IH in Hloop as (path & Hreads & Hx).
    exists (bit :: path). split; [by apply reads_cons with (r1 := r1)|].
    destruct x as [v|e].
    + destruct Hx as [[Hne Hd]|(-> & Heof & t' & Hd & Hin)].
      * left. split; [done|]. cbn [descend]. by rewrite Hchild.
      * right. split_and!; [done..|]. exists t'. split; [cbn [descend]; by rewrite Hchild|].
        right. destruct Hin as [->|Hin]; [|done]. cbn [descend] in Hd. by simplify_eq.
    + by destruct Hx as (_ & Hleaf & _).
Qed.

End decode_byte_inversion.

(** X1. On every tree and every bit source, finite or endless, the loop
    of [decode_byte] stops within one pass more than the height of the
    tree, and allowing it more passes changes nothing. *)
Theorem X1_decode_byte_terminates `{BitSource R} (tree : HuffmanTree) (r : R) :
  ∃ res, decode_byte tree r = Some res
         ∧ ∀ fuel, height tree < fuel → decode_byte_loop fuel tree r = Some res.
Proof.
  destruct (decode_byte_total tree r) as [res Hres]. exists res. split; [done|].
  intros fuel Hfuel. apply (decode_byte_loop_mono (S (height tree))); [done|lia].
Qed.

Lemma X1_decode_byte_terminates_witness :
  ∃ res, decode_byte tree_ab Zeros = Some res
         ∧ decode_byte_loop 10 tree_ab Zeros = Some res.
Proof.
  destruct (X1_decode_byte_terminates tree_ab Zeros) as (res & Hres & Hfuel).
  exists res. split; [exact Hres|]. apply Hfuel. simpl. lia.
Defined.

(** X2. What [decode_byte] returns is explained by the bits it consumed.
    A byte is returned only after a path of at least one bit from the
    root to a leaf that holds it, and the source is left exactly after
    that path. [None] is returned only on such a path to a leaf that
    holds [None], or when the source is exhausted on a path that has
    reached no leaf. *)
Theorem X2_decode_byte_inversion `{BitSource R} (tree : HuffmanTree) (r r' : R)
    (v : option Z) :
  decode_byte tree r = Some (Ok v, r') →
  ∃ path, reads r path r'
    ∧ ((path ≠ [] ∧ descend tree path = Some (TreeLeaf v) ∧ v ∈ leaves tree)
       ∨ (v = None ∧ readbit r' = None
          ∧ ∃ t', descend tree path = Some t'
                  ∧ (path = [] ∨ isinstance_TreeLeaf t' = false))).
Proof.
  intros Hdec. apply decode_byte_loop_inv in Hdec as (path & Hreads & Hx).
  exists path. split; [done|].
  destruct Hx as [[Hne Hd]|Hx]; [left|by right].
  split_and!; [done..|]. by apply (descend_leaf_in_leaves tree path).
Qed.

Lemma X2_decode_byte_inversion_witness :
  decode_byte tree_ab [true; false; true] = Some (Ok (Some 98%Z), [true])
  ∧ ∃ path, reads [true; false; true] path [true]
      ∧ ((path ≠ [] ∧ descend tree_ab path = Some (TreeLeaf (Some 98%Z))
          ∧ Some 98%Z ∈ leaves tree_ab)
         ∨ (Some 98%Z = None ∧ readbit [true] = None
            ∧ ∃ t', descend tree_ab path = Some t'
                    ∧ (path = [] ∨ isinstance_TreeLeaf t' = false))).
Proof.
  split; [reflexivity|].
  apply (X2_decode_byte_inversion tree_ab [true; false; true] [true] (Some 98%Z)).
  reflexivity.
Defined.

(** X3. Whatever the outcome, a call of [decode_byte] reads at most as
    many bits as the tree is high, and at most one from a tree that is a
    single leaf: what it takes from the source is a prefix of that
    length. *)
Theorem X3_decode_byte_reads_at_most_height `{BitSource R} (tree : HuffmanTree)
    (r r' : R) (x : result (option Z)) :
  decode_byte tree r = Some (x, r') →
  ∃ path, reads r path r' ∧ length path ≤ Nat.max 1 (height tree).
Proof.
  intros Hdec. apply decode_byte_loop_inv in Hdec as (path & Hreads & Hx).
  exists path. split; [done|]. destruct x as [v|e].
  - destruct Hx as [[_ Hd]|(_ & _ & t' & Hd & [->|Hin])].
    + apply descend_leaf_height in Hd. lia.
    + simpl. lia.
    + destruct t' as [|lt rt]; [done|]. apply descend_internal_height in Hd. lia.
  - destruct Hx as (_ & _ & ->). lia.
Qed.

Lemma X3_decode_byte_reads_at_most_height_witness :
  decode_byte tree_ab [true; true; false; true] = Some (Ok None, [false; true])
  ∧ ∃ path, reads [true; true; false; true] path [false; true]
            ∧ length path ≤ Nat.max 1 (height tree_ab).
Proof.
  split; [reflexivity|].
  apply (X3_decode_byte_reads_at_most_height tree_ab [true; true; false; true]
           [false; true] (Ok None)).
  reflexivity.
Defined.

(** X4. [decode_byte] raises only on a tree that is a single leaf, and
    then after reading exactly one bit. From a root that is an internal
    node it always returns: a leaf value or [None]. *)
Theorem X4_decode_byte_raises_only_on_root_leaf `{BitSource R} :
  (∀ (tree : HuffmanTree) (r r' : R) (e : exn),
     decode_byte tree r = Some (Raise e, r') →
     e = AttributeError ∧ isinstance_TreeLeaf tree = true
     ∧ ∃ bit, readbit r = Some (bit, r'))
  ∧ (∀ (lt rt : HuffmanTree) (r : R),
       ∃ v r', decode_byte (TreeInternal lt rt) r = Some (Ok v, r')).
Proof.
  split.
  - intros tree r r' e Hdec.
    apply decode_byte_loop_inv in Hdec as (path & Hreads & -> & Hleaf & Hlen).
    split_and!; [done..|].
    destruct path as [|bit [|? ?]]; [done| |done].
    exists bit. inversion Hreads as [|? ? r1 ? ? Hbit Hrest]; subst.
    by inversion Hrest; subst.
  - intros lt rt r.
    destruct (decode_byte_total (TreeInternal lt rt) r) as [[[v|e] r'] Hdec]; [by eauto|].
    by apply decode_byte_loop_inv in Hdec as (path & _ & _ & Hleaf & _).
Qed.

Lemma X4_decode_byte_raises_only_on_root_leaf_witness :
  decode_byte (TreeLeaf (Some 7%Z)) [true; false] = Some (Raise AttributeError, [false])
  ∧ (AttributeError = AttributeError ∧ isinstance_TreeLeaf (TreeLeaf (Some 7%Z)) = true
     ∧ ∃ bit, readbit [true; false] = Some (bit, [false])).
Proof.
  split; [reflexivity|].
  apply (proj1 X4_decode_byte_raises_only_on_root_leaf
           (TreeLeaf (Some 7%Z)) [true; false] [false] AttributeError).
  reflexivity.
Defined.

(** ** [decompress] on arbitrary streams *)

Lemma decode_byte_some_leaf `{BitSource R} (tree : HuffmanTree) (r r' : R) (b : Z) :
  decode_byte tree r = Some (Ok (Some b), r') → Some b ∈ leaves tree.
Proof.
  intros Hdec. apply decode_byte_loop_inv in Hdec as (path & _ & [[_ Hd]|(? & _)]); [|done].
  by apply (descend_leaf_in_leaves tree path).
Qed.

Section decompress_any.
Context `{Pickle}.

(** What the loop of [decompress] writes: one byte per decoded value,
    the low 8 bits of a leaf value, and no more values than bits read. *)
Lemma decompress_loop_output (fuel : nat) :
  ∀ st dst,
  decompress_loop fuel st = Some (Ok dst) →
  w_pending (d_writer st) = [] →
  (∀ b, d_byte st = Some b → Some b ∈ leaves (d_tree st)) →
  ∃ syms, w_out (d_writer dst) = w_out (d_writer st) ++ map (λ v, (v mod 256)%Z) syms
          ∧ w_pending (d_writer dst) = []
          ∧ Forall (λ v, Some v ∈ leaves (d_tree st)) syms
          ∧ length syms + length (d_reader dst)
            ≤ length (d_reader st) + match d_byte st with Some _ => 1 | None => 0 end.
Proof.
  induction fuel as [|fuel IH]; intros st dst Hloop Hpend Hleaf;
    cbn [decompress_loop] in Hloop.
  - destruct (d_byte st) eqn:Hb; [done|]. simplify_eq. exists [].
    rewrite app_nil_r. split_and!; [done..|constructor|simpl; lia].
  - destruct (d_byte st) as [b|] eqn:Hb.
    2:{ simplify_eq. exists []. rewrite app_nil_r.
        split_and!; [done..|constructor|simpl; lia]. }
    destruct (decode_byte (d_tree st) (d_reader st)) as [[[byte'|e] reader]|] eqn:Hdec;
      [|done..].
    rewrite writebits_byte, byte_of_bits_low in Hloop by done.
    apply IH in Hloop as (syms & Hout & Hp & Hsyms & Hlen); cbn [d_writer d_tree d_byte d_reader w_out w_pending] in *.
    + exists (b :: syms). split_and!.
      * by rewrite Hout, <- app_assoc.
      * done.
      * constructor; [by apply Hleaf|done].
      * cbn [length]. destruct byte' as [b'|].
        -- apply decode_byte_loop_consumes in Hdec. lia.
        -- apply decode_byte_loop_length in Hdec. lia.
    + done.
    + intros b' ->. by apply decode_byte_some_leaf in Hdec.
Qed.

Lemma decompress_loop_no_raise (fuel : nat) :
  ∀ st lt rt e,
  d_tree st = TreeInternal lt rt → decompress_loop fuel st ≠ Some (Raise e).
Proof.
  induction fuel as [|fuel IH]; intros st lt rt e Htree Hloop;
    cbn [decompress_loop] in Hloop.
  - by destruct (d_byte st).
  - destruct (d_byte st) as [b|]; [|done].
    destruct (decode_byte (d_tree st) (d_reader st)) as [[[byte'|e'] reader]|] eqn:Hdec;
      [|..|done].
    + by apply (IH _ lt rt) in Hloop.
    + apply decode_byte_loop_inv in Hdec as (path & _ & _ & Hleaf & _).
      by rewrite Htree in Hleaf.
Qed.

End decompress_any.

(** X5. [decompress] stops on every stream: each value written costs at
    least one bit of the payload, so its loop makes no more passes than
    the payload has bits. *)
Theorem X5_decompress_terminates `{Pickle} (compressed uncompressed : list Z) :
  ∃ outcome, decompress compressed uncompressed = Some outcome.
Proof. apply decompress_total. Qed.

(** X6. With a tree whose root is an internal node, [decompress] never
    raises: whatever bytes follow the tree, it returns normally. *)
Theorem X6_decompress_internal_root_returns `{Pickle} (compressed uncompressed rest : list Z)
    (lt rt : HuffmanTree) :
  read_tree compressed = Ok (TreeInternal lt rt, rest) →
  ∃ dst, decompress compressed uncompressed = Some (Ok dst).
Proof.
  intros Hread.
  destruct (decompress_total compressed uncompressed) as [[dst|e] Hd]; [by eauto|].
  exfalso. unfold decompress in Hd. rewrite Hread in Hd.
  destruct (decode_byte (TreeInternal lt rt) (BitReader rest))
    as [[[byte|e'] reader]|] eqn:Hdec; [|..|done].
  - destruct (decompress_loop _ _) as [[st|e']|] eqn:Hloop; [done| |done].
    by apply (decompress_loop_no_raise _ _ lt rt) in Hloop.
  - by apply decode_byte_loop_inv in Hdec as (path & _ & _ & Hleaf & _).
Qed.

Lemma X6_decompress_internal_root_returns_witness :
  read_tree (H := tag_pickle) (tag_dump tree_ab ++ [77; 3]%Z)
  = Ok (TreeInternal (TreeLeaf (Some 97%Z))
          (TreeInternal (TreeLeaf (Some 98%Z)) (TreeLeaf None)), [77; 3]%Z)
  ∧ ∃ dst, decompress (H := tag_pickle) (tag_dump tree_ab ++ [77; 3]%Z) [] = Some (Ok dst).
Proof.
  split; [reflexivity|].
  apply (X6_decompress_internal_root_returns (H := tag_pickle) _ [] [77; 3]%Z
           (TreeLeaf (Some 97%Z)) (TreeInternal (TreeLeaf (Some 98%Z)) (TreeLeaf None))).
  reflexivity.
Defined.

(** X7. Whatever the stream, when [decompress] returns, what it has
    appended to [uncompressed] is one byte per decoded value: the low 8
    bits of a value held by a leaf of the tree read from the stream. It
    writes no more bytes than the payload has bits. *)
Theorem X7_decompress_writes_leaf_values `{Pickle} (compressed uncompressed rest : list Z)
    (tree : HuffmanTree) (dst : decompress_locals) :
  read_tree compressed = Ok (tree, rest) →
  decompress compressed uncompressed = Some (Ok dst) →
  ∃ syms, w_out (d_writer dst) = uncompressed ++ map (λ v, (v mod 256)%Z) syms
          ∧ Forall (λ v, Some v ∈ leaves tree) syms
          ∧ length syms ≤ 8 * length rest.
Proof.
  intros Hread Hd. unfold decompress in Hd. rewrite Hread in Hd.
  destruct (decode_byte tree (BitReader rest)) as [[[byte|e] reader]|] eqn:Hdec; [|done..].
  destruct (decompress_loop _ _) as [[st|e]|] eqn:Hloop; [|done..].
  apply decompress_loop_output in Hloop as (syms & Hout & Hp & Hsyms & Hlen);
    cbn [d_writer d_tree d_byte d_reader new_BitWriter w_out w_pending] in *.
  - exists syms. simplify_eq. cbn [d_writer].
    split_and!; [|done|].
    + unfold flush. by rewrite Hp.
    + assert (length reader + match byte with Some _ => 1 | None => 0 end
              ≤ length (BitReader rest)).
      { destruct byte as [b|].
        - apply decode_byte_loop_consumes in Hdec. lia.
        - apply decode_byte_loop_length in Hdec. lia. }
      unfold BitReader in *. rewrite bits_of_bytes_length in *. lia.
  - done.
  - intros b ->. by apply decode_byte_some_leaf in Hdec.
Qed.

Lemma X7_decompress_writes_leaf_values_witness :
  ∃ dst,
    read_tree (H := tag_pickle) (tag_dump tree_ab ++ [85%Z]) = Ok (tree_ab, [85%Z])
    ∧ decompress (H := tag_pickle) (tag_dump tree_ab ++ [85%Z]) [1%Z] = Some (Ok dst)
    ∧ ∃ syms, w_out (d_writer dst) = [1%Z] ++ map (λ v, (v mod 256)%Z) syms
              ∧ Forall (λ v, Some v ∈ leaves tree_ab) syms
              ∧ length syms ≤ 8 * length [85%Z].
Proof.
  destruct (decompress (H := tag_pickle) (tag_dump tree_ab ++ [85%Z]) [1%Z])
    as [[dst|e]|] eqn:Hd; [|vm_compute in Hd; discriminate Hd..].
  exists dst. split; [reflexivity|]. split; [reflexivity|].
  apply (X7_decompress_writes_leaf_values (H := tag_pickle)
           (tag_dump tree_ab ++ [85%Z]) [1%Z] [85%Z] tree_ab dst); [reflexivity|exact Hd].
Defined.

(** X8. A stream whose tree is a single leaf: with nothing after the
    tree [decompress] returns having written nothing; with anything after
    it [decompress] raises, because [decode_byte] asks the leaf for a
    child. *)
Theorem X8_decompress_single_leaf `{Pickle} (compressed uncompressed rest : list Z)
    (value : option Z) :
  read_tree compressed = Ok (TreeLeaf value, rest) →
  (rest = [] →
   ∃ dst, decompress compressed uncompressed = Some (Ok dst)
          ∧ w_out (d_writer dst) = uncompressed)
  ∧ (rest ≠ [] → decompress compressed uncompressed = Some (Raise AttributeError)).
Proof.
  intros Hread. unfold decompress. rewrite Hread. split.
  - intros ->. eexists. split; reflexivity.
  - intros Hne. destruct rest as [|z rest]; [done|]. cbv zeta.
    assert (Hdec : decode_byte (TreeLeaf value) (BitReader (z :: rest))
                   = Some (Raise AttributeError,
                           [Z.testbit z 6; Z.testbit z 5; Z.testbit z 4; Z.testbit z 3;
                            Z.testbit z 2; Z.testbit z 1; Z.testbit z 0]
                           ++ bits_of_bytes rest))
      by by apply (decode_byte_root_leaf value _ _ (Z.testbit z 7)).
    by rewrite Hdec.
Qed.

Lemma X8_decompress_single_leaf_witness :
  read_tree (H := tag_pickle) (tag_dump (TreeLeaf None) ++ [0%Z]) = Ok (TreeLeaf None, [0%Z])
  ∧ decompress (H := tag_pickle) (tag_dump (TreeLeaf None) ++ [0%Z]) []
    = Some (Raise AttributeError)
  ∧ ∃ dst, decompress (H := tag_pickle) (tag_dump (TreeLeaf None)) [5%Z] = Some (Ok dst)
           ∧ w_out (d_writer dst) = [5%Z].
Proof.
  split; [reflexivity|]. split.
  - apply (proj2 (X8_decompress_single_leaf (H := tag_pickle)
                    (tag_dump (TreeLeaf None) ++ [0%Z]) [] [0%Z] None eq_refl)).
    discriminate.
  - apply (proj1 (X8_decompress_single_leaf (H := tag_pickle)
                    (tag_dump (TreeLeaf None)) [5%Z] [] None eq_refl)).
    reflexivity.
Defined.

(** X9. Bytes that follow a compressed stream do not matter. With a tree
    whose root is an internal node and whose leaves hold [None] and every
    byte of the input, [decompress] of what [compress] produced, followed
    by any bytes at all, still writes exactly the input: decoding stops
    at the sentinel. *)
Theorem X9_round_trip_ignores_trailing_bytes `{Pickle} (lt rt : HuffmanTree)
    (input u trailing : list Z) :
  PickleRoundTrip →
  Forall is_byte input →
  None ∈ leaves (TreeInternal lt rt) →
  (∀ b, b ∈ input → Some b ∈ leaves (TreeInternal lt rt)) →
  ∃ cst dst,
    compress (TreeInternal lt rt) input [] = Some (Ok cst)
    ∧ decompress (w_out (c_writer cst) ++ trailing) u = Some (Ok dst)
    ∧ w_out (d_writer dst) = u ++ input.
Proof.
  intros Hpickle Hbytes Heof Hcover.
  destruct (table_paths _ input Hcover) as [paths Hpaths].
  destruct (table_complete _ None Heof) as [eof_path Heofp].
  destruct (compress_artifact _ input [] paths eof_path Hbytes Hpaths Heofp)
    as (payload & Hcompress & _ & Hbits).
  cbn [app] in Hcompress. eexists _, _. split; [exact Hcompress|].
  cbn [c_writer w_out]. rewrite <- app_assoc. split.
  - apply (decompress_codewords _ input paths _ _
             (eof_path
              ++ repeat false (pad_length (length (concat paths ++ eof_path)))
              ++ bits_of_bytes trailing)); try done.
    + by apply table_codewords.
    + by rewrite bits_of_bytes_app, Hbits, <- !app_assoc.
    + apply table_sound in Heofp.
      apply (decode_byte_leaf _ eof_path); [apply reads_list| |done].
      by intros ->.
  - done.
Qed.

Lemma X9_round_trip_ignores_trailing_bytes_witness :
  @PickleRoundTrip tag_pickle
  ∧ Forall is_byte [98; 97]%Z
  ∧ None ∈ leaves tree_ab
  ∧ ∃ cst dst,
      compress (H := tag_pickle) tree_ab [98; 97]%Z [] = Some (Ok cst)
      ∧ decompress (H := tag_pickle) (w_out (c_writer cst) ++ [255; 0; 255]%Z) [] = Some (Ok dst)
      ∧ w_out (d_writer dst) = [] ++ [98; 97]%Z.
Proof.
  assert (Hb : Forall is_byte [98; 97]%Z) by (repeat constructor; unfold is_byte; lia).
  assert (He : None ∈ leaves tree_ab) by (cbn; rewrite !elem_of_cons; auto).
  split_and!; [apply tag_pickle_round_trip|exact Hb|exact He|].
  apply (X9_round_trip_ignores_trailing_bytes (H := tag_pickle)
           (TreeLeaf (Some 97%Z)) (TreeInternal (TreeLeaf (Some 98%Z)) (TreeLeaf None))
           [98; 97]%Z [] [255; 0; 255]%Z);
    [apply tag_pickle_round_trip|exact Hb|exact He|].
  intros b Hin.
  apply elem_of_cons in Hin as [->|Hin]; [apply list_elem_of_further, list_elem_of_here|].
  apply elem_of_cons in Hin as [->|Hin]; [apply list_elem_of_here|].
  by apply elem_of_nil in Hin.
Defined.

(** ** When [compress] fails *)

(** The loop of [compress] over bytes that all have an entry: it writes
    their paths and goes on with the rest of the input. *)
Lemma compress_loop_prefix (pre : list Z) (paths : list (list bool)) :
  ∀ (fuel : nat) (st : compress_locals) (rest : list Z),
  Forall is_byte pre →
  Forall2 (λ b p, c_table st !! Some b = Some p) pre paths →
  c_reader st = bits_of_bytes (pre ++ rest) →
  c_end_of_file st = false →
  compress_loop (length pre + fuel) st
  = compress_loop fuel
      {| c_tree := c_tree st; c_table := c_table st;
         c_writer := write_path (concat paths) (c_writer st);
         c_reader := bits_of_bytes rest; c_end_of_file := false |}.
Proof.
  revert paths.
  induction pre as [|b pre IH]; intros paths fuel st rest Hbytes Hpaths Hreader Hrun.
  - apply Forall2_nil_inv_l in Hpaths as ->. cbn [length Nat.add concat write_path fold_left].
    destruct st as [t tb w rd eof]. cbn in *. by subst.
  - apply Forall2_cons_inv_l in Hpaths as (p & paths' & Hp & Hpaths & ->).
    apply Forall_cons in Hbytes as [Hb Hbytes].
    cbn [length Nat.add compress_loop]. rewrite Hrun. unfold compress_body.
    rewrite Hreader. unfold bits_of_bytes. cbn [app map concat].
    rewrite readbits_byte by done. rewrite Hp.
    rewrite (IH paths' fuel _ rest); try done.
    cbn [c_tree c_table c_writer concat]. by rewrite write_path_app.
Qed.

Lemma covered_or_first_missing (table : gmap (option Z) (list bool)) (input : list Z) :
  (∃ paths, Forall2 (λ b p, table !! Some b = Some p) input paths)
  ∨ (∃ pre b post paths,
       input = pre ++ b :: post
       ∧ Forall2 (λ b p, table !! Some b = Some p) pre paths
       ∧ table !! Some b = None).
Proof.
  induction input as [|b input IH]; [left; by exists []|].
  destruct (table !! Some b) as [p|] eqn:Hp.
  - destruct IH as [[paths Hpaths]|(pre & b' & post & paths & -> & Hpaths & Hmiss)].
    + left. exists (p :: paths). by constructor.
    + right. exists (b :: pre), b', post, (p :: paths). split_and!; [done| |done].
      by constructor.
  - right. exists [], b, input, []. split_and!; [done|constructor|done].
Qed.

Section compress_failures.
Context `{Pickle}.

Lemma compress_first_missing (tree : HuffmanTree) (pre post compressed : list Z) (b : Z)
    (paths : list (list bool)) :
  Forall is_byte (pre ++ b :: post) →
  Forall2 (λ b p, make_encoding_table tree !! Some b = Some p) pre paths →
  make_encoding_table tree !! Some b = None →
  compress tree (pre ++ b :: post) compressed = Some (Raise (KeyError (Some b))).
Proof.
  intros Hbytes Hpaths Hmiss. unfold compress.
  apply Forall_app in Hbytes as [Hpre Hbpost]. apply Forall_cons in Hbpost as [Hb _].
  replace (S (length (pre ++ b :: post))) with (length pre + S (S (length post)))
    by (rewrite length_app; simpl; lia).
  rewrite (compress_loop_prefix pre paths _ _ (b :: post)); try done.
  cbn [compress_loop c_end_of_file]. unfold compress_body.
  cbn [c_reader c_table]. unfold bits_of_bytes. cbn [map concat].
  rewrite readbits_byte by done. by rewrite Hmiss.
Qed.

Lemma compress_missing_sentinel (tree : HuffmanTree) (input compressed : list Z)
    (paths : list (list bool)) :
  Forall is_byte input →
  Forall2 (λ b p, make_encoding_table tree !! Some b = Some p) input paths →
  make_encoding_table tree !! None = None →
  compress tree input compressed = Some (Raise (KeyError None)).
Proof.
  intros Hbytes Hpaths Hmiss. unfold compress.
  replace (S (length input)) with (length input + 1) by lia.
  rewrite (compress_loop_prefix input paths _ _ []); try done;
    [|by rewrite app_nil_r].
  cbn [compress_loop c_end_of_file]. unfold compress_body.
  cbn [c_reader c_table bits_of_bytes map concat readbits].
  unfold readbit at 1. cbn [BitReader_source]. by rewrite Hmiss.
Qed.

End compress_failures.

(** X10. The [KeyError] of [compress] is that of the first byte of the
    input without an entry in the table, whatever comes after it and
    whether or not the table has an entry for [None]. *)
Theorem X10_compress_raises_first_missing_byte `{Pickle} (tree : HuffmanTree)
    (pre post compressed : list Z) (b : Z) :
  Forall is_byte (pre ++ b :: post) →
  (∀ b', b' ∈ pre → is_Some (make_encoding_table tree !! Some b')) →
  make_encoding_table tree !! Some b = None →
  compress tree (pre ++ b :: post) compressed = Some (Raise (KeyError (Some b))).
Proof.
  intros Hbytes Hpre Hmiss.
  destruct (covered_or_first_missing (make_encoding_table tree) pre)
    as [[paths Hpaths]|(pre' & b' & post' & paths & -> & _ & Hmiss')].
  - by apply (compress_first_missing tree pre post compressed b paths).
  - destruct (Hpre b') as [p Hp]; [|congruence].
    apply elem_of_app. right. apply list_elem_of_here.
Qed.

Lemma X10_compress_raises_first_missing_byte_witness :
  Forall is_byte ([97; 98] ++ 100 :: [99; 97])%Z
  ∧ make_encoding_table tree_ab !! Some 100%Z = None
  ∧ compress (H := tag_pickle) tree_ab ([97; 98] ++ 100 :: [99; 97])%Z []
    = Some (Raise (KeyError (Some 100%Z))).
Proof.
  assert (Hb : Forall is_byte ([97; 98] ++ 100 :: [99; 97])%Z)
    by (repeat constructor; unfold is_byte; lia).
  split_and!; [exact Hb|reflexivity|].
  apply (X10_compress_raises_first_missing_byte (H := tag_pickle) tree_ab
           [97; 98]%Z [99; 97]%Z [] 100%Z); [exact Hb| |reflexivity].
  intros b' Hin.
  apply elem_of_cons in Hin as [->|Hin]; [by eexists|].
  apply elem_of_cons in Hin as [->|Hin]; [by eexists|].
  by apply elem_of_nil in Hin.
Defined.



(** X12. [compress] returns normally exactly when the table has an entry
    for [None] and for every byte of the input; otherwise it raises. It
    never fails to come back. *)
Theorem X12_compress_returns_iff_covered `{Pickle} (tree : HuffmanTree)
    (input compressed : list Z) :
  Forall is_byte input →
  ((∃ st, compress tree input compressed = Some (Ok st))
   ↔ (is_Some (make_encoding_table tree !! None)
      ∧ ∀ b, b ∈ input → is_Some (make_encoding_table tree !! Some b)))
  ∧ ((∃ k, compress tree input compressed = Some (Raise (KeyError k)))
     ∨ (∃ st, compress tree input compressed = Some (Ok st))).
Proof.
  intros Hbytes.
  destruct (covered_or_first_missing (make_encoding_table tree) input)
    as [[paths Hpaths]|(pre & b & post & paths & -> & Hpaths & Hmiss)].
  - assert (Hcover : ∀ b, b ∈ input → is_Some (make_encoding_table tree !! Some b)).
    { intros b Hin. apply list_elem_of_lookup in Hin as [i Hi].
      destruct (Forall2_lookup_l _ _ _ _ _ Hpaths Hi) as (p & _ & Hp). by exists p. }
    destruct (make_encoding_table tree !! None) as [eof_path|] eqn:Heof.
    + destruct (compress_artifact tree input compressed paths eof_path Hbytes Hpaths Heof)
        as (payload & Hc & _).
      split; [|right; by eauto]. split; [by eauto|]. intros _. by eauto.
    + rewrite (compress_missing_sentinel tree input compressed paths) by done.
      split; [|left; by eauto]. split; [by intros [st Hst]|].
      by intros [[p Hp] _].
  - rewrite (compress_first_missing tree pre post compressed b paths) by done.
    split; [|left; by eauto]. split; [by intros [st Hst]|].
    intros [_ Hcover]. destruct (Hcover b) as [p Hp]; [|congruence].
    apply elem_of_app. right. apply list_elem_of_here.
Qed.

Lemma X12_compress_returns_iff_covered_witness :
  Forall is_byte [97; 97; 98]%Z
  ∧ ∃ st, compress (H := tag_pickle) tree_ab [97; 97; 98]%Z [] = Some (Ok st).
Proof.
  assert (Hb : Forall is_byte [97; 97; 98]%Z) by (repeat constructor; unfold is_byte; lia).
  split; [exact Hb|].
  apply (proj1 (X12_compress_returns_iff_covered (H := tag_pickle) tree_ab
                  [97; 97; 98]%Z [] Hb)).
  split; [by eexists|]. intros b Hin.
  apply elem_of_cons in Hin as [->|Hin]; [by eexists|].
  apply elem_of_cons in Hin as [->|Hin]; [by eexists|].
  apply elem_of_cons in Hin as [->|Hin]; [by eexists|].
  by apply elem_of_nil in Hin.
Defined.
